(** * Token connector utilities: locators, subscription names, schemas, hex payloads

    A shallow embedding of [src/tokens/tokens.util.ts] together with the parts
    of the JavaScript runtime it calls ([String.prototype] methods, [Buffer],
    [URLSearchParams]).

    A JavaScript string is a finite sequence of UTF-16 code units; it is
    modelled as a list of code units held in [N], each below [2^16].
    [undefined] and [null] results are modelled with [option]. *)

From Stdlib Require Import List NArith ZArith Lia String Ascii Bool.
From Stdlib Require Import Permutation.
Import ListNotations.

Local Open Scope N_scope.

(* ================================================================= *)
(** ** JavaScript strings *)

Module JS.

Definition jsstring := list N.

(** An ASCII literal of the source, as code units. *)
Definition lit (s : string) : jsstring :=
  map N_of_ascii (list_ascii_of_string s).

(** [a === b] on strings. *)
Fixpoint str_eqb (a b : jsstring) : bool :=
  match a, b with
  | [], [] => true
  | x :: a', y :: b' => (x =? y) && str_eqb a' b'
  | _, _ => false
  end.

(** [s.startsWith(p)] *)
Fixpoint startsWith (s p : jsstring) {struct p} : bool :=
  match p with
  | [] => true
  | y :: p' =>
      match s with
      | [] => false
      | x :: s' => (x =? y) && startsWith s' p'
      end
  end.

(** [s.slice(n)] for [0 <= n]. *)
Definition slice (s : jsstring) (n : nat) : jsstring := skipn n s.

(** All the pieces of [s] between occurrences of the one-character
    separator [c]; the empty string gives one empty piece. *)
Fixpoint split_all (c : N) (s : jsstring) : list jsstring :=
  match s with
  | [] => [[]]
  | x :: r =>
      if x =? c then [] :: split_all c r
      else match split_all c r with
           | h :: t => (x :: h) :: t
           | [] => [[x]]
           end
  end.

(** [s.split(c, limit)] for a one-character separator: the pieces are
    computed as without a limit and the array is cut at [limit] entries. *)
Definition split (s : jsstring) (c : N) (limit : nat) : list jsstring :=
  firstn limit (split_all c s).

(** [parts.join(sep)] *)
Fixpoint join (sep : jsstring) (parts : list jsstring) : jsstring :=
  match parts with
  | [] => []
  | [p] => p
  | p :: rest => p ++ sep ++ join sep rest
  end.

(** [parts?.[i]] : [undefined] when [parts] is, or when [i] is out of range. *)
Definition opt_index {A} (parts : option (list A)) (i : nat) : option A :=
  match parts with
  | None => None
  | Some l => nth_error l i
  end.

(** [s.replace(pat, rep)] with a string pattern: the first occurrence only.
    (The replacement used by the source is empty, so no [$]-pattern of the
    replacement string is involved.) *)
Fixpoint replace (s pat rep : jsstring) : jsstring :=
  if startsWith s pat then rep ++ skipn (List.length pat) s
  else match s with
       | [] => []
       | x :: s' => x :: replace s' pat rep
       end.

Definition colon : N := 58.     (* ':' *)

End JS.

Import JS.

(* ================================================================= *)
(** ** tokens.interfaces.ts *)

(** [enum TokenType] : the values of the two members. *)
Module TokenType.
Definition FUNGIBLE : jsstring := lit "fungible".
Definition NONFUNGIBLE : jsstring := lit "nonfungible".
End TokenType.

(** [interface IPoolLocator] : every field is [string | null]. *)
Record IPoolLocator := mkPoolLocator {
  address : option jsstring;
  schema : option jsstring;
  type : option jsstring
}.

(** [interface IValidPoolLocator] : the same fields, none of them null. *)
Record IValidPoolLocator := mkValidPoolLocator {
  vaddress : jsstring;
  vschema : jsstring;
  vtype : jsstring
}.

(** A valid locator seen at the wider type. *)
Definition asPoolLocator (l : IValidPoolLocator) : IPoolLocator :=
  {| address := Some (vaddress l);
     schema := Some (vschema l);
     type := Some (vtype l) |}.

(* ================================================================= *)
(** ** tokens.util.ts : subscription names *)

Definition packSubscriptionName
  (prefix poolLocator : jsstring) (event : option jsstring) : jsstring :=
  match event with
  | None => join (lit ":") [prefix; poolLocator]
  | Some ev => join (lit ":") [prefix; poolLocator; ev]
  end.

Record SubscriptionName := mkSubscriptionName {
  sub_prefix : jsstring;
  sub_poolLocator : option jsstring;
  sub_event : option jsstring
}.

Definition unpackSubscriptionName (prefix data : jsstring) : SubscriptionName :=
  let parts :=
    if startsWith data (prefix ++ lit ":")
    then Some (split (slice data (List.length prefix + 1)) colon 2)
    else None in
  {| sub_prefix := prefix;
     sub_poolLocator := opt_index parts 0;
     sub_event := opt_index parts 1 |}.

(* ================================================================= *)
(** ** tokens.util.ts : schema names and locator validity *)

(** [getTokenSchema(type, withData = true)].  The parameter type [TokenType]
    is erased at run time, so [type] is whatever string the caller passes;
    an omitted [withData] is [None]. *)
Definition getTokenSchema (type : jsstring) (withData : option bool) : jsstring :=
  let withData := match withData with Some b => b | None => true end in
  if str_eqb type TokenType.FUNGIBLE
  then (if withData then lit "ERC20WithData" else lit "ERC20NoData")
  else (if withData then lit "ERC721WithData" else lit "ERC721NoData").

Definition not_null {A} (o : option A) : bool :=
  match o with Some _ => true | None => false end.

Definition validatePoolLocator (poolLocator : IPoolLocator) : bool :=
  not_null (address poolLocator) && not_null (schema poolLocator)
  && not_null (type poolLocator).

(** The four canonical schema names. *)
Definition canonical_schemas : list jsstring :=
  [lit "ERC20WithData"; lit "ERC20NoData"; lit "ERC721WithData"; lit "ERC721NoData"].

(** The portion of [e] before its first occurrence of [c] (all of [e] when
    there is none). *)
Fixpoint before_first (c : N) (e : jsstring) : jsstring :=
  match e with
  | [] => []
  | x :: r => if x =? c then [] else x :: before_first c r
  end.

(* ================================================================= *)
(** ** Unicode: UTF-16 code units, code points, UTF-8 bytes *)

Module Unicode.

Definition is_high (u : N) : bool := (0xD800 <=? u) && (u <=? 0xDBFF).
Definition is_low (u : N) : bool := (0xDC00 <=? u) && (u <=? 0xDFFF).

Definition REPLACEMENT : N := 0xFFFD.

(** The code points of a string, read as UTF-16: a high surrogate followed
    by a low one is one supplementary code point, any other surrogate is
    replaced by U+FFFD. *)
Fixpoint code_points (s : jsstring) : list N :=
  match s with
  | [] => []
  | u :: r =>
      if is_high u then
        match r with
        | l :: r' =>
            if is_low l
            then (0x10000 + (u - 0xD800) * 0x400 + (l - 0xDC00)) :: code_points r'
            else REPLACEMENT :: code_points r
        | [] => [REPLACEMENT]
        end
      else if is_low u then REPLACEMENT :: code_points r
      else u :: code_points r
  end.

(** The code units of one code point. *)
Definition utf16_units (cp : N) : list N :=
  if cp <? 0x10000 then [cp]
  else [0xD800 + (cp - 0x10000) / 0x400; 0xDC00 + (cp - 0x10000) mod 0x400].

(** The UTF-8 bytes of one code point. *)
Definition utf8_bytes (cp : N) : list N :=
  if cp <=? 0x7F then [cp]
  else if cp <=? 0x7FF then [0xC0 + cp / 64; 0x80 + cp mod 64]
  else if cp <=? 0xFFFF then
    [0xE0 + cp / 4096; 0x80 + (cp / 64) mod 64; 0x80 + cp mod 64]
  else
    [0xF0 + cp / 262144; 0x80 + (cp / 4096) mod 64;
     0x80 + (cp / 64) mod 64; 0x80 + cp mod 64].

(** State of the UTF-8 decoder: the code point under construction, the
    number of continuation bytes still expected, and the bounds the next
    continuation byte must respect. *)
Record dstate := mkDstate {
  d_cp : N;
  d_left : nat;
  d_lower : N;
  d_upper : N
}.

Definition dinit : dstate := mkDstate 0 0 0x80 0xBF.

(** A byte read when no sequence is in progress: the code points emitted
    and the next state. *)
Definition lead (b : N) : list N * dstate :=
  if b <=? 0x7F then ([b], dinit)
  else if (0xC2 <=? b) && (b <=? 0xDF) then
    ([], mkDstate (b - 0xC0) 1 0x80 0xBF)
  else if (0xE0 <=? b) && (b <=? 0xEF) then
    ([], mkDstate (b - 0xE0) 2
           (if b =? 0xE0 then 0xA0 else 0x80)
           (if b =? 0xED then 0x9F else 0xBF))
  else if (0xF0 <=? b) && (b <=? 0xF4) then
    ([], mkDstate (b - 0xF0) 3
           (if b =? 0xF0 then 0x90 else 0x80)
           (if b =? 0xF4 then 0x8F else 0xBF))
  else ([REPLACEMENT], dinit).

(** The decoder, with replacement of ill-formed sequences: a byte that
    cannot continue the sequence in progress ends it with U+FFFD and is
    then read again as a leading byte; input that ends inside a sequence
    gives one U+FFFD. *)
Fixpoint decode (st : dstate) (bs : list N) : list N :=
  match bs with
  | [] => match d_left st with O => [] | S _ => [REPLACEMENT] end
  | b :: r =>
      match d_left st with
      | O => let '(out, st') := lead b in out ++ decode st' r
      | S k =>
          if (d_lower st <=? b) && (b <=? d_upper st) then
            let cp := d_cp st * 64 + (b - 0x80) in
            match k with
            | O => cp :: decode dinit r
            | S _ => decode (mkDstate cp k 0x80 0xBF) r
            end
          else
            REPLACEMENT :: (let '(out, st') := lead b in out ++ decode st' r)
      end
  end.

(** A string with no lone surrogate and every code unit in range: what
    [String.prototype.isWellFormed] tests. *)
Fixpoint isWellFormed (s : jsstring) : bool :=
  match s with
  | [] => true
  | u :: r =>
      if is_high u then
        match r with
        | l :: r' => is_low l && isWellFormed r'
        | [] => false
        end
      else negb (is_low u) && (u <? 0x10000) && isWellFormed r
  end.

(** Conversion to a scalar value string (Web IDL [USVString]). *)
Definition toUSVString (s : jsstring) : jsstring :=
  flat_map utf16_units (code_points s).

End Unicode.

(* ================================================================= *)
(** ** Buffer: the ['utf8'] and ['hex'] encodings *)

Module Buffer.

(** [Buffer.from(s, 'utf8')] *)
Definition from_utf8 (s : jsstring) : list N :=
  flat_map Unicode.utf8_bytes (Unicode.code_points s).

(** [buf.toString('utf8')] *)
Definition toString_utf8 (bs : list N) : jsstring :=
  flat_map Unicode.utf16_units (Unicode.decode Unicode.dinit bs).

Definition hex_digit (d : N) : N := if d <? 10 then 48 + d else 87 + d.

(** [buf.toString('hex')] : two lower-case digits per byte. *)
Definition toString_hex (bs : list N) : jsstring :=
  flat_map (fun b => [hex_digit (b / 16); hex_digit (b mod 16)]) bs.

Definition unhex (c : N) : option N :=
  if (48 <=? c) && (c <=? 57) then Some (c - 48)
  else if (97 <=? c) && (c <=? 102) then Some (c - 87)
  else if (65 <=? c) && (c <=? 70) then Some (c - 55)
  else None.

(** [Buffer.from(s, 'hex')] : one byte per pair of hexadecimal digits; the
    data is cut at the first pair that is not two hexadecimal digits, and
    a last unpaired character is dropped. *)
Fixpoint from_hex (s : jsstring) : list N :=
  match s with
  | a :: b :: r =>
      match unhex a, unhex b with
      | Some x, Some y => (16 * x + y) :: from_hex r
      | _, _ => []
      end
  | _ => []
  end.

End Buffer.

(* ================================================================= *)
(** ** tokens.util.ts : the data argument as hex bytes *)

Definition encodeHex (data : jsstring) : jsstring :=
  let encoded := Buffer.toString_hex (Buffer.from_utf8 data) in
  if str_eqb encoded (lit "") then lit "0x00" else lit "0x" ++ encoded.

Definition decodeHex (data : jsstring) : jsstring :=
  let decoded :=
    Buffer.toString_utf8 (Buffer.from_hex (replace data (lit "0x") (lit ""))) in
  if str_eqb decoded [0] then lit "" else decoded.

(* ================================================================= *)
(** ** URLSearchParams: the application/x-www-form-urlencoded format *)

Module URLSearchParams.

(** The list of name-value pairs a [URLSearchParams] object holds. *)
Definition t := list (jsstring * jsstring).

(** Setting a key of a record: a key already present keeps its place and
    takes the new value. *)
Fixpoint set_entry (k v : jsstring) (l : t) : t :=
  match l with
  | [] => [(k, v)]
  | (k', v') :: r =>
      if str_eqb k' k then (k', v) :: r else (k', v') :: set_entry k v r
  end.

(** [new URLSearchParams(obj)] : the object's own properties in order,
    keys and values converted to scalar value strings. *)
Definition of_record (entries : list (jsstring * jsstring)) : t :=
  fold_left
    (fun acc kv =>
       set_entry (Unicode.toUSVString (fst kv)) (Unicode.toUSVString (snd kv)) acc)
    entries [].

(** Bytes the serializer leaves as they are: ASCII alphanumerics and
    [*], [-], [.], [_]. *)
Definition unreserved (b : N) : bool :=
  ((48 <=? b) && (b <=? 57)) || ((65 <=? b) && (b <=? 90))
  || ((97 <=? b) && (b <=? 122))
  || (b =? 42) || (b =? 45) || (b =? 46) || (b =? 95).

Definition upper_hex_digit (d : N) : N := if d <? 10 then 48 + d else 55 + d.

(** One byte of a name or value: space becomes [+], other bytes outside
    the unreserved set become [%XX]. *)
Definition encode_byte (b : N) : list N :=
  if b =? 32 then [43]
  else if unreserved b then [b]
  else [37; upper_hex_digit (b / 16); upper_hex_digit (b mod 16)].

Definition serialize_component (s : jsstring) : jsstring :=
  flat_map encode_byte (Buffer.from_utf8 s).

(** [params.toString()] *)
Definition toString (q : t) : jsstring :=
  join (lit "&")
    (map (fun kv => serialize_component (fst kv) ++ lit "=" ++ serialize_component (snd kv)) q).

(** Percent-decoding: [%] followed by two hexadecimal digits is one byte,
    any other byte stands for itself. *)
Fixpoint percent_decode (bs : list N) : list N :=
  match bs with
  | [] => []
  | b :: r =>
      if b =? 37 then
        match r with
        | h :: l :: r' =>
            match Buffer.unhex h, Buffer.unhex l with
            | Some x, Some y => (16 * x + y) :: percent_decode r'
            | _, _ => b :: percent_decode r
            end
        | _ => b :: percent_decode r
        end
      else b :: percent_decode r
  end.

Definition plus_to_space (bs : list N) : list N :=
  map (fun b => if b =? 43 then 32 else b) bs.

(** A sequence cut at its first [=] : the name before it and the value
    after it; without [=] the whole sequence is the name. *)
Fixpoint split_pair (bs : list N) : list N * list N :=
  match bs with
  | [] => ([], [])
  | b :: r =>
      if b =? 61 then ([], r)
      else let '(n, v) := split_pair r in (b :: n, v)
  end.

Definition parse_component (bs : list N) : jsstring :=
  Buffer.toString_utf8 (percent_decode (plus_to_space bs)).

Definition parse_sequence (bs : list N) : t :=
  match bs with
  | [] => []
  | _ => let '(n, v) := split_pair bs in [(parse_component n, parse_component v)]
  end.

(** The parser: the UTF-8 bytes of the input are cut at every [&], empty
    sequences are skipped. *)
Definition parse (input : jsstring) : t :=
  flat_map parse_sequence (split_all 38 (Buffer.from_utf8 input)).

(** [new URLSearchParams(str)] : one leading [?] is dropped. *)
Definition of_string (init : jsstring) : t :=
  parse (if startsWith init (lit "?") then slice init 1 else init).

(** [params.get(name)] : the value of the first pair named [name], or
    [null]. *)
Fixpoint get_usv (q : t) (name : jsstring) : option jsstring :=
  match q with
  | [] => None
  | (k, v) :: r => if str_eqb k name then Some v else get_usv r name
  end.

Definition get (q : t) (name : jsstring) : option jsstring :=
  get_usv q (Unicode.toUSVString name).

End URLSearchParams.

(* ================================================================= *)
(** ** tokens.util.ts : pool locators *)

(** Modelled from the spec: the declaration of [enum EncodedPoolLocatorEnum]
    (tokens.interfaces.ts) is not among the sources.  The members are the
    three keys of the encoded locator, as the locator strings of
    [test/suites/erc20.ts] spell them, and the legacy key for the schema
    field, which the earlier [EncodedPoolIdEnum] declaration spells
    [standard]. *)
Module EncodedPoolLocatorEnum.
Definition Address : jsstring := lit "address".
Definition Schema : jsstring := lit "schema".
Definition Standard : jsstring := lit "standard".
Definition Type_ : jsstring := lit "type".
End EncodedPoolLocatorEnum.

Definition packPoolLocator (locator : IValidPoolLocator) : jsstring :=
  let encoded := URLSearchParams.of_record
    [ (EncodedPoolLocatorEnum.Address, vaddress locator);
      (EncodedPoolLocatorEnum.Schema, vschema locator);
      (EncodedPoolLocatorEnum.Type_, vtype locator) ] in
  URLSearchParams.toString encoded.

(** [a ?? b] *)
Definition nullish {A} (a b : option A) : option A :=
  match a with Some _ => a | None => b end.

Definition unpackPoolLocator (data : jsstring) : IPoolLocator :=
  let encoded := URLSearchParams.of_string data in
  {| address := URLSearchParams.get encoded EncodedPoolLocatorEnum.Address;
     schema := nullish (URLSearchParams.get encoded EncodedPoolLocatorEnum.Schema)
                       (URLSearchParams.get encoded EncodedPoolLocatorEnum.Standard);
     type := URLSearchParams.get encoded EncodedPoolLocatorEnum.Type_ |}.

(* ================================================================= *)
(** ** Argument lists of contract calls *)

(** Modelled from the spec: the service that assembles a contract call
    (tokens.service.ts) is not among the sources, only its test suites are.
    The spec's [buildArguments(schemaName, operation, operationFields)] puts
    the operation's own fields in the order the method expects and, for a
    with-data schema, appends the encoded data field (the encoding of the
    empty string when no data was supplied); for a without-data schema the
    data field is left out.  A schema name that is none of the four fails.
    The spec gives the order of the fields for mint ([to], then [amount]),
    which is the operation modelled. *)
Module Resolver.

Inductive Operation := mint.

Record OperationFields := mkFields {
  f_to : jsstring;
  f_amount : jsstring;
  f_data : option jsstring
}.

(** Whether a schema carries the data argument; [None] for a name that is
    not a schema. *)
Definition schemaWithData (schemaName : jsstring) : option bool :=
  if str_eqb schemaName (lit "ERC20WithData") then Some true
  else if str_eqb schemaName (lit "ERC721WithData") then Some true
  else if str_eqb schemaName (lit "ERC20NoData") then Some false
  else if str_eqb schemaName (lit "ERC721NoData") then Some false
  else None.

Definition ownArguments (operation : Operation) (fields : OperationFields)
  : list jsstring :=
  match operation with
  | mint => [f_to fields; f_amount fields]
  end.

Definition buildArguments
  (schemaName : jsstring) (operation : Operation) (fields : OperationFields)
  : option (list jsstring) :=
  match schemaWithData schemaName with
  | Some true =>
      let data := match f_data fields with Some d => d | None => lit "" end in
      Some (ownArguments operation fields ++ [encodeHex data])
  | Some false => Some (ownArguments operation fields)
  | None => None
  end.

End Resolver.

(* ================================================================= *)
(** ** Notions used in the statements *)

(** A Unicode scalar value: a code point that is not a surrogate. *)
Definition scalar (cp : N) : Prop :=
  cp < 0xD800 \/ (0xE000 <= cp /\ cp < 0x110000).

Definition is_byte (b : N) : Prop := b < 256.

(** Characters the serializer can produce inside a name or a value: ASCII,
    and none of [&], [=], [?]. *)
Definition plain (c : N) : Prop := c < 128 /\ c <> 38 /\ c <> 61 /\ c <> 63.

(** The form of one serialized pair. *)
Definition serialize_pair (kv : jsstring * jsstring) : jsstring :=
  URLSearchParams.serialize_component (fst kv) ++ lit "="
  ++ URLSearchParams.serialize_component (snd kv).

Definition wf_pair (kv : jsstring * jsstring) : Prop :=
  Unicode.isWellFormed (fst kv) = true /\ Unicode.isWellFormed (snd kv) = true.

(** The text [decodeHex] decodes before it looks for the lone NUL. *)
Definition decodedText (data : jsstring) : jsstring :=
  Buffer.toString_utf8 (Buffer.from_hex (replace data (lit "0x") (lit ""))).

(** The type string of the test suites' invalid-type requests. *)
Definition funkible : jsstring := lit "funkible".

(** A locator with an unpaired surrogate in its address. *)
Definition surrogate_locator : IValidPoolLocator :=
  {| vaddress := [0xD800]; vschema := lit "ERC20WithData"; vtype := lit "fungible" |}.

(** The mint request of the test suites: no data supplied. *)
Definition mint_request : Resolver.OperationFields :=
  {| Resolver.f_to := lit "0x123";
     Resolver.f_amount := lit "20";
     Resolver.f_data := None |}.

(** ** Notions used in the further properties *)

(** Every element is a UTF-16 code unit: the lists that are JavaScript
    strings. *)
Definition code_units (s : jsstring) : Prop := Forall (fun u => u < 0x10000) s.

(** A lower-case hexadecimal digit. *)
Definition lower_hex (c : N) : bool :=
  ((48 <=? c) && (c <=? 57)) || ((97 <=? c) && (c <=? 102)).

(** What can follow the hexadecimal digits without being read: nothing, one
    unpaired character, or a pair that is not two hexadecimal digits. *)
Definition unreadable (junk : jsstring) : Prop :=
  match junk with
  | c1 :: c2 :: _ => Buffer.unhex c1 = None \/ Buffer.unhex c2 = None
  | _ => True
  end.

(** The bytes [encodeHex] writes: those of the text, or one zero byte for
    the empty text. *)
Definition payload_bytes (s : jsstring) : list N :=
  match s with
  | [] => [0]
  | _ => Buffer.from_utf8 s
  end.

(** The decoder states reached while reading any bytes: the bounds on the
    next continuation byte and the code point under construction leave only
    scalar values to come. *)
Definition decoder_inv (st : Unicode.dstate) : Prop :=
  let cp := Unicode.d_cp st in
  let lo := Unicode.d_lower st in
  let up := Unicode.d_upper st in
  match Unicode.d_left st with
  | 0%nat => True
  | 1%nat =>
      0x80 <= lo /\ up <= 0xBF /\ (cp <= 0x35F \/ (0x380 <= cp /\ cp <= 0x43FF))
  | 2%nat =>
      0x80 <= lo /\ up <= 0xBF
      /\ (cp * 64 + (up - 0x80) <= 0x35F
          \/ (0x380 <= cp * 64 + (lo - 0x80) /\ cp * 64 + (up - 0x80) <= 0x43FF))
  | 3%nat =>
      0x80 <= lo /\ up <= 0xBF
      /\ 16 <= cp * 64 + (lo - 0x80) /\ cp * 64 + (up - 0x80) <= 271
  | _ => False
  end.

(** The characters of an encoded locator: unreserved ones, [%], [+], [=]
    and [&]. *)
Definition locator_char (c : N) : bool :=
  URLSearchParams.unreserved c || (c =? 37) || (c =? 43) || (c =? 61) || (c =? 38).

(** A locator whose three fields are JavaScript strings. *)
Definition locator_strings (L : IValidPoolLocator) : Prop :=
  code_units (vaddress L) /\ code_units (vschema L) /\ code_units (vtype L).

Definition locator_wellFormed (L : IValidPoolLocator) : Prop :=
  Unicode.isWellFormed (vaddress L) = true
  /\ Unicode.isWellFormed (vschema L) = true
  /\ Unicode.isWellFormed (vtype L) = true.

(** The fields of a locator as scalar value strings. *)
Definition usv_locator (L : IValidPoolLocator) : IValidPoolLocator :=
  {| vaddress := Unicode.toUSVString (vaddress L);
     vschema := Unicode.toUSVString (vschema L);
     vtype := Unicode.toUSVString (vtype L) |}.

(** The narrowing that [validatePoolLocator] licenses. *)
Definition asValidPoolLocator (l : IPoolLocator) : option IValidPoolLocator :=
  match address l, schema l, type l with
  | Some a, Some s, Some t => Some (mkValidPoolLocator a s t)
  | _, _, _ => None
  end.

(** The pairs of a locator, under the current keys and under the legacy
    key for the schema. *)
Definition locator_pairs (L : IValidPoolLocator) : URLSearchParams.t :=
  [ (EncodedPoolLocatorEnum.Address, vaddress L);
    (EncodedPoolLocatorEnum.Schema, vschema L);
    (EncodedPoolLocatorEnum.Type_, vtype L) ].

Definition legacy_pairs (L : IValidPoolLocator) : URLSearchParams.t :=
  [ (EncodedPoolLocatorEnum.Address, vaddress L);
    (EncodedPoolLocatorEnum.Standard, vschema L);
    (EncodedPoolLocatorEnum.Type_, vtype L) ].

(** The locator of the test suites' fungible pool. *)
Definition test_locator : IValidPoolLocator :=
  {| vaddress := lit "0x123456";
     vschema := lit "ERC20WithData";
     vtype := lit "fungible" |}.

(* ================================================================= *)
(** * Properties *)

(** Linear arithmetic that also knows quotients and remainders. *)
Ltac nlia := zify; Z.to_euclidean_division_equations; lia.

(** ** Strings *)

Section StringFacts.

Lemma str_eqb_refl (a : jsstring) : str_eqb a a = true.
Proof.
  induction a as [|x a IH]; simpl; [reflexivity|].
  now rewrite N.eqb_refl, IH.
Qed.

Lemma str_eqb_eq (a b : jsstring) : str_eqb a b = true <-> a = b.
Proof.
  split; [|intros ->; apply str_eqb_refl].
  revert b; induction a as [|x a IH]; intros [|y b]; simpl; try congruence.
  rewrite andb_true_iff, N.eqb_eq. intros [-> H]. f_equal. now apply IH.
Qed.

Lemma str_eqb_neq (a b : jsstring) : a <> b -> str_eqb a b = false.
Proof.
  intros H. destruct (str_eqb a b) eqn:E; [|reflexivity].
  apply str_eqb_eq in E. contradiction.
Qed.

Lemma startsWith_app (p r : jsstring) : startsWith (p ++ r) p = true.
Proof.
  induction p as [|y p IH]; simpl; [reflexivity|].
  now rewrite N.eqb_refl.
Qed.

Lemma startsWith_spec (s p : jsstring) :
  startsWith s p = true <-> exists r, s = p ++ r.
Proof.
  split.
  - revert s; induction p as [|y p IH]; intros s H; simpl in *.
    + now exists s.
    + destruct s as [|x s]; [discriminate|].
      apply andb_true_iff in H as [Hx Hs]. apply N.eqb_eq in Hx as ->.
      destruct (IH _ Hs) as [r ->]. now exists r.
  - intros [r ->]. apply startsWith_app.
Qed.

Lemma slice_app (p r : jsstring) : slice (p ++ r) (List.length p) = r.
Proof. unfold slice. induction p; simpl; auto. Qed.

Lemma split_all_nonempty (c : N) (s : jsstring) : split_all c s <> [].
Proof.
  induction s as [|x s IH]; simpl; [discriminate|].
  destruct (x =? c); [discriminate|].
  destruct (split_all c s); [congruence|discriminate].
Qed.

(** Without the separator there is one piece. *)
Lemma split_all_none (c : N) (l : jsstring) :
  ~ In c l -> split_all c l = [l].
Proof.
  induction l as [|x l IH]; simpl; intros H; [reflexivity|].
  destruct (N.eqb_spec x c) as [->|_]; [tauto|].
  rewrite IH by tauto. reflexivity.
Qed.

(** The first piece ends at the first separator. *)
Lemma split_all_app (c : N) (l r : jsstring) :
  ~ In c l -> split_all c (l ++ c :: r) = l :: split_all c r.
Proof.
  induction l as [|x l IH]; simpl; intros H.
  - now rewrite N.eqb_refl.
  - destruct (N.eqb_spec x c) as [->|_]; [tauto|].
    rewrite IH by tauto. reflexivity.
Qed.

Lemma split_all_hd (c : N) (e : jsstring) :
  hd [] (split_all c e) = before_first c e.
Proof.
  induction e as [|x e IH]; simpl; [reflexivity|].
  destruct (x =? c); [reflexivity|].
  destruct (split_all c e) eqn:E; simpl in *; now rewrite <- IH.
Qed.

Lemma before_first_notin (c : N) (e : jsstring) : ~ In c (before_first c e).
Proof.
  induction e as [|x e IH]; simpl; [tauto|].
  destruct (N.eqb_spec x c); simpl; [tauto|]. intros [H|H]; auto.
Qed.

Lemma before_first_app (c : N) (e1 e2 : jsstring) :
  ~ In c e1 -> before_first c (e1 ++ c :: e2) = e1.
Proof.
  induction e1 as [|x e1 IH]; simpl; intros H.
  - now rewrite N.eqb_refl.
  - destruct (N.eqb_spec x c) as [->|_]; [tauto|]. f_equal. apply IH. tauto.
Qed.

End StringFacts.

(** ** UTF-8, hex and percent encodings *)

Module UnicodeFacts.
Import Unicode.

Lemma decode_idle (b : N) (r : list N) :
  decode dinit (b :: r) = fst (lead b) ++ decode (snd (lead b)) r.
Proof. simpl. now destruct (lead b). Qed.

Lemma decode_last (cp lo up b : N) (r : list N) :
  lo <= b <= up ->
  decode (mkDstate cp 1 lo up) (b :: r) = (cp * 64 + (b - 0x80)) :: decode dinit r.
Proof.
  intros [H1 H2]. cbn [decode d_left d_lower d_upper d_cp].
  apply N.leb_le in H1, H2. now rewrite H1, H2.
Qed.

Lemma decode_more (cp lo up b : N) (k : nat) (r : list N) :
  lo <= b <= up ->
  decode (mkDstate cp (S (S k)) lo up) (b :: r) =
  decode (mkDstate (cp * 64 + (b - 0x80)) (S k) 0x80 0xBF) r.
Proof.
  intros [H1 H2]. cbn [decode d_left d_lower d_upper d_cp].
  apply N.leb_le in H1, H2. now rewrite H1, H2.
Qed.

Lemma lead_1 (b : N) : b <= 0x7F -> lead b = ([b], dinit).
Proof. intros H. unfold lead. apply N.leb_le in H. now rewrite H. Qed.

Lemma lead_2 (b : N) :
  0xC2 <= b <= 0xDF -> lead b = ([], mkDstate (b - 0xC0) 1 0x80 0xBF).
Proof.
  intros [H1 H2]. unfold lead.
  replace (b <=? 0x7F) with false by (symmetry; apply N.leb_gt; lia).
  apply N.leb_le in H1, H2. now rewrite H1, H2.
Qed.

Lemma lead_3 (b : N) :
  0xE0 <= b <= 0xEF ->
  lead b = ([], mkDstate (b - 0xE0) 2
                  (if b =? 0xE0 then 0xA0 else 0x80)
                  (if b =? 0xED then 0x9F else 0xBF)).
Proof.
  intros [H1 H2]. unfold lead.
  replace (b <=? 0x7F) with false by (symmetry; apply N.leb_gt; lia).
  replace (b <=? 0xDF) with false by (symmetry; apply N.leb_gt; lia).
  rewrite andb_false_r.
  apply N.leb_le in H1, H2. now rewrite H1, H2.
Qed.

Lemma lead_4 (b : N) :
  0xF0 <= b <= 0xF4 ->
  lead b = ([], mkDstate (b - 0xF0) 3
                  (if b =? 0xF0 then 0x90 else 0x80)
                  (if b =? 0xF4 then 0x8F else 0xBF)).
Proof.
  intros [H1 H2]. unfold lead.
  replace (b <=? 0x7F) with false by (symmetry; apply N.leb_gt; lia).
  replace (b <=? 0xDF) with false by (symmetry; apply N.leb_gt; lia).
  replace (b <=? 0xEF) with false by (symmetry; apply N.leb_gt; lia).
  rewrite !andb_false_r.
  apply N.leb_le in H1, H2. now rewrite H1, H2.
Qed.

(** The decoder reads back the bytes of one scalar value. *)
Lemma decode_utf8_bytes (cp : N) (r : list N) :
  scalar cp -> decode dinit (utf8_bytes cp ++ r) = cp :: decode dinit r.
Proof.
  intros Hs. unfold utf8_bytes.
  destruct (N.leb_spec cp 0x7F) as [H1|H1].
  { cbn [app]. rewrite decode_idle, lead_1 by assumption. reflexivity. }
  destruct (N.leb_spec cp 0x7FF) as [H2|H2].
  { cbn [app]. rewrite decode_idle, lead_2 by nlia.
    cbn [fst snd app]. rewrite decode_last by nlia. f_equal. nlia. }
  destruct (N.leb_spec cp 0xFFFF) as [H3|H3].
  { cbn [app]. rewrite decode_idle, lead_3 by nlia.
    cbn [fst snd app]. rewrite decode_more.
    2:{ destruct (N.eqb_spec (0xE0 + cp / 4096) 0xE0);
        destruct (N.eqb_spec (0xE0 + cp / 4096) 0xED);
        unfold scalar in Hs; nlia. }
    rewrite decode_last by nlia. f_equal. nlia. }
  cbn [app]. rewrite decode_idle, lead_4 by (unfold scalar in Hs; nlia).
  cbn [fst snd app]. rewrite decode_more.
  2:{ destruct (N.eqb_spec (0xF0 + cp / 262144) 0xF0);
      destruct (N.eqb_spec (0xF0 + cp / 262144) 0xF4);
      unfold scalar in Hs; nlia. }
  rewrite decode_more by nlia.
  rewrite decode_last by nlia. f_equal. unfold scalar in Hs. nlia.
Qed.

Lemma decode_utf8 (cps : list N) :
  Forall scalar cps -> decode dinit (flat_map utf8_bytes cps) = cps.
Proof.
  induction 1 as [|cp cps Hcp _ IH]; [reflexivity|].
  cbn [flat_map]. rewrite decode_utf8_bytes by assumption. now rewrite IH.
Qed.

Lemma is_high_spec (u : N) : is_high u = true <-> 0xD800 <= u <= 0xDBFF.
Proof. unfold is_high. rewrite andb_true_iff, !N.leb_le. tauto. Qed.

Lemma is_low_spec (u : N) : is_low u = true <-> 0xDC00 <= u <= 0xDFFF.
Proof. unfold is_low. rewrite andb_true_iff, !N.leb_le. tauto. Qed.

Lemma is_high_false (u : N) : is_high u = false <-> u < 0xD800 \/ 0xDBFF < u.
Proof. unfold is_high. rewrite andb_false_iff, !N.leb_gt. tauto. Qed.

Lemma is_low_false (u : N) : is_low u = false <-> u < 0xDC00 \/ 0xDFFF < u.
Proof. unfold is_low. rewrite andb_false_iff, !N.leb_gt. tauto. Qed.

Lemma utf16_units_pair (u l : N) :
  0xD800 <= u <= 0xDBFF -> 0xDC00 <= l <= 0xDFFF ->
  utf16_units (0x10000 + (u - 0xD800) * 0x400 + (l - 0xDC00)) = [u; l].
Proof.
  intros Hu Hl. unfold utf16_units.
  replace (_ <? 0x10000) with false by (symmetry; apply N.ltb_ge; lia).
  f_equal; [|f_equal]; nlia.
Qed.

(** The code points of a well-formed string are scalar values, and their
    code units are the string. *)
Lemma code_points_wf_len (n : nat) (s : jsstring) :
  (List.length s <= n)%nat -> isWellFormed s = true ->
  Forall scalar (code_points s) /\ flat_map utf16_units (code_points s) = s.
Proof.
  revert s. induction n as [|n IH]; intros s Hn Hw.
  - destruct s; [split; [constructor|reflexivity] | simpl in Hn; lia].
  - destruct s as [|u r]; [split; [constructor|reflexivity]|].
    cbn [isWellFormed code_points] in *.
    destruct (is_high u) eqn:Eh.
    + destruct r as [|l r']; [discriminate|].
      apply andb_true_iff in Hw as [El Hw]. rewrite El.
      apply is_high_spec in Eh. apply is_low_spec in El.
      destruct (IH r') as [HF HU]; [simpl in Hn; lia | assumption |].
      split.
      * constructor; [right; lia | assumption].
      * cbn [flat_map]. rewrite utf16_units_pair by assumption.
        simpl. now rewrite HU.
    + apply andb_true_iff in Hw as [Hw Hr].
      apply andb_true_iff in Hw as [El Hlt].
      apply negb_true_iff in El. rewrite El.
      apply is_high_false in Eh. apply is_low_false in El.
      apply N.ltb_lt in Hlt.
      destruct (IH r) as [HF HU]; [simpl in Hn; lia | assumption |].
      split.
      * constructor; [unfold scalar; lia | assumption].
      * cbn [flat_map]. unfold utf16_units at 1.
        apply N.ltb_lt in Hlt. rewrite Hlt. simpl. now rewrite HU.
Qed.

Lemma code_points_scalar (s : jsstring) :
  isWellFormed s = true -> Forall scalar (code_points s).
Proof. intros H. now apply (code_points_wf_len (List.length s) s). Qed.

Lemma toUSVString_wf (s : jsstring) :
  isWellFormed s = true -> toUSVString s = s.
Proof. intros H. now apply (code_points_wf_len (List.length s) s). Qed.

(** [Buffer.from(s, 'utf8').toString('utf8')] is [s] for a well-formed [s]. *)
Lemma utf8_roundtrip (s : jsstring) :
  isWellFormed s = true -> Buffer.toString_utf8 (Buffer.from_utf8 s) = s.
Proof.
  intros H. unfold Buffer.toString_utf8, Buffer.from_utf8.
  rewrite decode_utf8 by now apply code_points_scalar.
  now apply toUSVString_wf.
Qed.

Lemma utf8_bytes_range (cp : N) : scalar cp -> Forall is_byte (utf8_bytes cp).
Proof.
  intros Hs. unfold utf8_bytes, is_byte, scalar in *.
  destruct (N.leb_spec cp 0x7F); [repeat constructor; lia|].
  destruct (N.leb_spec cp 0x7FF); [repeat constructor; nlia|].
  destruct (N.leb_spec cp 0xFFFF); repeat constructor; nlia.
Qed.

Lemma from_utf8_range (s : jsstring) :
  isWellFormed s = true -> Forall is_byte (Buffer.from_utf8 s).
Proof.
  intros H. apply code_points_scalar in H. unfold Buffer.from_utf8.
  induction H as [|cp cps Hcp _ IH]; [constructor|].
  cbn [flat_map]. apply Forall_app. split; [now apply utf8_bytes_range|exact IH].
Qed.

Lemma utf8_bytes_nonempty (cp : N) : utf8_bytes cp <> [].
Proof.
  unfold utf8_bytes.
  destruct (cp <=? 0x7F); [discriminate|].
  destruct (cp <=? 0x7FF); [discriminate|].
  destruct (cp <=? 0xFFFF); discriminate.
Qed.

Lemma code_points_nonempty (s : jsstring) : s <> [] -> code_points s <> [].
Proof.
  destruct s as [|u r]; [congruence|]. intros _. cbn [code_points].
  destruct (is_high u).
  - destruct r as [|l r']; [discriminate|]. destruct (is_low l); discriminate.
  - destruct (is_low u); discriminate.
Qed.

Lemma from_utf8_nonempty (s : jsstring) : s <> [] -> Buffer.from_utf8 s <> [].
Proof.
  intros H. apply code_points_nonempty in H. unfold Buffer.from_utf8.
  destruct (code_points s) as [|cp cps]; [congruence|].
  cbn [flat_map]. pose proof (utf8_bytes_nonempty cp).
  destruct (utf8_bytes cp); [congruence|discriminate].
Qed.
End UnicodeFacts.

Import UnicodeFacts.

Module BufferFacts.

Lemma unhex_hex_digit (d : N) : d < 16 -> Buffer.unhex (Buffer.hex_digit d) = Some d.
Proof.
  intros H. unfold Buffer.hex_digit, Buffer.unhex.
  destruct (N.ltb_spec d 10).
  - replace (48 <=? 48 + d) with true by (symmetry; apply N.leb_le; lia).
    replace (48 + d <=? 57) with true by (symmetry; apply N.leb_le; lia).
    cbn [andb]. f_equal. lia.
  - replace (87 + d <=? 57) with false by (symmetry; apply N.leb_gt; lia).
    rewrite andb_false_r.
    replace (97 <=? 87 + d) with true by (symmetry; apply N.leb_le; lia).
    replace (87 + d <=? 102) with true by (symmetry; apply N.leb_le; lia).
    cbn [andb]. f_equal. lia.
Qed.

(** [Buffer.from(buf.toString('hex'), 'hex')] gives the bytes of [buf]. *)
Lemma hex_roundtrip (bs : list N) :
  Forall is_byte bs -> Buffer.from_hex (Buffer.toString_hex bs) = bs.
Proof.
  induction 1 as [|b bs Hb _ IH]; [reflexivity|].
  unfold is_byte in Hb.
  cbn [Buffer.toString_hex flat_map app Buffer.from_hex].
  rewrite !unhex_hex_digit by nlia.
  fold (Buffer.toString_hex bs). rewrite IH. f_equal. nlia.
Qed.

Lemma toString_hex_nonempty (bs : list N) : bs <> [] -> Buffer.toString_hex bs <> [].
Proof. destruct bs; [congruence|discriminate]. Qed.

End BufferFacts.

Import BufferFacts.

(** What [encodeHex] returns for a string that is not empty. *)
Lemma encodeHex_nonempty (s : jsstring) :
  s <> [] -> encodeHex s = lit "0x" ++ Buffer.toString_hex (Buffer.from_utf8 s).
Proof.
  intros H. unfold encodeHex.
  rewrite str_eqb_neq; [reflexivity|].
  apply toString_hex_nonempty, from_utf8_nonempty, H.
Qed.

Lemma decodedText_encodeHex (s : jsstring) :
  Unicode.isWellFormed s = true -> s <> [] -> decodedText (encodeHex s) = s.
Proof.
  intros Hw Hne. unfold decodedText. rewrite encodeHex_nonempty by assumption.
  unfold replace at 1.
  destruct (lit "0x" ++ Buffer.toString_hex (Buffer.from_utf8 s)) eqn:E; [discriminate|].
  rewrite <- E. rewrite startsWith_app.
  change (skipn _ _) with (Buffer.toString_hex (Buffer.from_utf8 s)).
  cbn [lit list_ascii_of_string map app].
  rewrite hex_roundtrip by now apply from_utf8_range.
  now apply utf8_roundtrip.
Qed.

(** The round trip holds for every well-formed string but the one made of a
    single NUL. *)
Lemma decodeHex_encodeHex_gen (s : jsstring) :
  Unicode.isWellFormed s = true -> s <> [0] -> decodeHex (encodeHex s) = s.
Proof.
  intros Hw Hn. destruct s as [|u r] eqn:Es; [reflexivity|]. rewrite <- Es in *.
  assert (Hne : s <> []) by (subst; discriminate).
  unfold decodeHex. fold (decodedText (encodeHex s)).
  rewrite decodedText_encodeHex by assumption.
  now rewrite str_eqb_neq.
Qed.

(** C4: for every string [s] (of well-formed Unicode text, which is what has
    a UTF-8 form) that holds no NUL character,
    [decodeHex(encodeHex(s))] is [s]; the empty string included. *)
Theorem decodeHex_encodeHex (s : jsstring) :
  Unicode.isWellFormed s = true -> ~ In 0 s -> decodeHex (encodeHex s) = s.
Proof.
  intros Hw Hn. apply decodeHex_encodeHex_gen; [assumption|].
  intros ->. apply Hn. now left.
Qed.

Module URLSearchParamsFacts.
Import URLSearchParams.

Lemma unhex_upper_hex_digit (d : N) :
  d < 16 -> Buffer.unhex (upper_hex_digit d) = Some d.
Proof.
  intros H. unfold upper_hex_digit, Buffer.unhex.
  destruct (N.ltb_spec d 10).
  - replace (48 <=? 48 + d) with true by (symmetry; apply N.leb_le; lia).
    replace (48 + d <=? 57) with true by (symmetry; apply N.leb_le; lia).
    cbn [andb]. f_equal. lia.
  - replace (48 <=? 55 + d) with true by (symmetry; apply N.leb_le; lia).
    replace (55 + d <=? 57) with false by (symmetry; apply N.leb_gt; lia).
    replace (97 <=? 55 + d) with false by (symmetry; apply N.leb_gt; lia).
    replace (65 <=? 55 + d) with true by (symmetry; apply N.leb_le; lia).
    replace (55 + d <=? 70) with true by (symmetry; apply N.leb_le; lia).
    cbn [andb]. f_equal. lia.
Qed.

Lemma upper_hex_digit_range (d : N) :
  d < 16 ->
  48 <= upper_hex_digit d <= 57 \/ 65 <= upper_hex_digit d <= 70.
Proof. intros H. unfold upper_hex_digit. destruct (N.ltb_spec d 10); lia. Qed.

Lemma unreserved_range (b : N) :
  unreserved b = true -> 42 <= b <= 122 /\ b <> 43 /\ b <> 61 /\ b <> 63.
Proof.
  unfold unreserved.
  rewrite !orb_true_iff, !andb_true_iff, !N.leb_le, !N.eqb_eq. lia.
Qed.

Lemma encode_byte_plain (b : N) : b < 256 -> Forall plain (encode_byte b).
Proof.
  intros Hb. unfold encode_byte, plain.
  destruct (N.eqb_spec b 32); [repeat (apply Forall_cons || apply Forall_nil); lia|].
  destruct (unreserved b) eqn:E.
  - apply unreserved_range in E. repeat (apply Forall_cons || apply Forall_nil); lia.
  - assert (Hq : b / 16 < 16) by nlia. assert (Hr : b mod 16 < 16) by nlia.
    apply upper_hex_digit_range in Hq, Hr.
    repeat (apply Forall_cons || apply Forall_nil); lia.
Qed.

Lemma serialize_component_plain (s : jsstring) :
  Unicode.isWellFormed s = true -> Forall plain (serialize_component s).
Proof.
  intros H. apply from_utf8_range in H. unfold serialize_component.
  induction H as [|b bs Hb _ IH]; [constructor|].
  cbn [flat_map]. apply Forall_app. split; [now apply encode_byte_plain|exact IH].
Qed.

Lemma plus_to_space_app (a b : list N) :
  plus_to_space (a ++ b) = plus_to_space a ++ plus_to_space b.
Proof. apply map_app. Qed.

(** Percent-decoding undoes the encoding of one byte. *)
Lemma percent_decode_encode_byte (b : N) (rest : list N) :
  b < 256 ->
  percent_decode (plus_to_space (encode_byte b) ++ rest) = b :: percent_decode rest.
Proof.
  intros Hb. unfold encode_byte.
  destruct (N.eqb_spec b 32) as [->|Hn]; [reflexivity|].
  destruct (unreserved b) eqn:E.
  - apply unreserved_range in E.
    cbn [plus_to_space map app percent_decode].
    replace (b =? 43) with false by (symmetry; apply N.eqb_neq; lia).
    replace (b =? 37) with false by (symmetry; apply N.eqb_neq; lia).
    reflexivity.
  - pose proof (upper_hex_digit_range (b / 16)) as H1.
    pose proof (upper_hex_digit_range (b mod 16)) as H2.
    assert (Hq : b / 16 < 16) by nlia. assert (Hr : b mod 16 < 16) by nlia.
    specialize (H1 Hq). specialize (H2 Hr).
    cbn [plus_to_space map app].
    replace (upper_hex_digit (b / 16) =? 43) with false
      by (symmetry; apply N.eqb_neq; lia).
    replace (upper_hex_digit (b mod 16) =? 43) with false
      by (symmetry; apply N.eqb_neq; lia).
    change (37 =? 43) with false. cbn iota.
    cbn [percent_decode]. change (37 =? 37) with true. cbn iota.
    rewrite !unhex_upper_hex_digit by assumption.
    f_equal. nlia.
Qed.

Lemma percent_decode_encode (bs : list N) :
  Forall is_byte bs ->
  percent_decode (plus_to_space (flat_map encode_byte bs)) = bs.
Proof.
  induction 1 as [|b bs Hb _ IH]; [reflexivity|].
  cbn [flat_map]. rewrite plus_to_space_app, percent_decode_encode_byte by exact Hb.
  now rewrite IH.
Qed.

(** Parsing a serialized name or value gives it back. *)
Lemma parse_serialize_component (s : jsstring) :
  Unicode.isWellFormed s = true -> parse_component (serialize_component s) = s.
Proof.
  intros H. unfold parse_component, serialize_component.
  rewrite percent_decode_encode by now apply from_utf8_range.
  now apply utf8_roundtrip.
Qed.

Lemma split_pair_app (n v : list N) :
  ~ In 61 n -> split_pair (n ++ 61 :: v) = (n, v).
Proof.
  induction n as [|x n IH]; intros H; [reflexivity|].
  cbn [app split_pair].
  destruct (N.eqb_spec x 61) as [->|_]; [exfalso; apply H; now left|].
  rewrite IH; [reflexivity|]. intros Hin. apply H. now right.
Qed.

Lemma plain_not_in (c : N) (l : list N) :
  Forall plain l -> (c = 38 \/ c = 61) -> ~ In c l.
Proof.
  intros HF Hc Hin. rewrite Forall_forall in HF.
  destruct (HF _ Hin) as (_ & H1 & H2 & _). lia.
Qed.

Lemma parse_sequence_serialize_pair (kv : jsstring * jsstring) :
  wf_pair kv -> parse_sequence (serialize_pair kv) = [kv].
Proof.
  destruct kv as [k v]. intros [Hk Hv]. cbn [fst snd] in *.
  unfold serialize_pair, parse_sequence. cbn [fst snd].
  change (lit "=" ++ serialize_component v) with (61 :: serialize_component v).
  destruct (serialize_component k ++ 61 :: serialize_component v) eqn:E.
  { destruct (serialize_component k); discriminate. }
  rewrite <- E. rewrite split_pair_app.
  - now rewrite !parse_serialize_component.
  - apply plain_not_in; [now apply serialize_component_plain | now right].
Qed.

Lemma serialize_pair_ascii (kv : jsstring * jsstring) :
  wf_pair kv -> Forall (fun c => c < 128) (serialize_pair kv).
Proof.
  intros [Hk Hv]. unfold serialize_pair.
  apply Forall_app. split; [|constructor; [reflexivity|]].
  - eapply Forall_impl; [|apply serialize_component_plain, Hk].
    intros c H. apply H.
  - eapply Forall_impl; [|apply serialize_component_plain, Hv].
    intros c H. apply H.
Qed.

Lemma serialize_pair_no_amp (kv : jsstring * jsstring) :
  wf_pair kv -> ~ In 38 (serialize_pair kv).
Proof.
  intros [Hk Hv]. unfold serialize_pair. rewrite !in_app_iff.
  intros [H|[H|H]].
  - revert H. apply plain_not_in; [now apply serialize_component_plain | now left].
  - destruct H as [H|[]]. discriminate H.
  - revert H. apply plain_not_in; [now apply serialize_component_plain | now left].
Qed.

Lemma join_cons2 (sep p q : jsstring) (rest : list jsstring) :
  join sep (p :: q :: rest) = p ++ sep ++ join sep (q :: rest).
Proof. reflexivity. Qed.

(** Cutting a joined string at the separator gives the pieces back. *)
Lemma split_all_join (c : N) (parts : list jsstring) :
  parts <> [] -> Forall (fun p => ~ In c p) parts ->
  split_all c (join [c] parts) = parts.
Proof.
  intros Hne HF. revert Hne.
  induction HF as [|p rest Hp HF IH]; intros Hne; [now elim Hne|].
  destruct rest as [|q rest].
  - cbn [join]. now apply split_all_none.
  - rewrite join_cons2. cbn [app]. rewrite split_all_app by assumption.
    f_equal. apply IH. discriminate.
Qed.

Lemma join_ascii (parts : list jsstring) :
  Forall (Forall (fun c => c < 128)) parts ->
  Forall (fun c => c < 128) (join (lit "&") parts).
Proof.
  induction 1 as [|p rest Hp HF IH]; [constructor|].
  destruct rest as [|q rest]; [exact Hp|].
  rewrite join_cons2. apply Forall_app. split; [exact Hp|].
  constructor; [reflexivity|exact IH].
Qed.

(** ASCII text is its own UTF-8 form. *)
Lemma from_utf8_ascii (s : jsstring) :
  Forall (fun c => c < 128) s -> Buffer.from_utf8 s = s.
Proof.
  unfold Buffer.from_utf8.
  induction 1 as [|u r Hu _ IH]; [reflexivity|].
  cbn [Unicode.code_points].
  replace (Unicode.is_high u) with false
    by (symmetry; apply is_high_false; lia).
  replace (Unicode.is_low u) with false
    by (symmetry; apply is_low_false; lia).
  cbn [flat_map]. rewrite IH. unfold Unicode.utf8_bytes.
  replace (u <=? 0x7F) with true by (symmetry; apply N.leb_le; lia).
  reflexivity.
Qed.

(** Parsing the serialization of a list of pairs gives the list back. *)
Lemma parse_toString (q : t) : Forall wf_pair q -> parse (toString q) = q.
Proof.
  intros Hq. unfold parse.
  change (toString q) with (join (lit "&") (map serialize_pair q)).
  destruct q as [|kv q]; [reflexivity|].
  rewrite from_utf8_ascii.
  2:{ apply join_ascii. apply Forall_map.
      eapply Forall_impl; [|exact Hq]. apply serialize_pair_ascii. }
  change (lit "&") with [38]. rewrite split_all_join.
  - induction Hq as [|x l Hx _ IH]; [reflexivity|].
    cbn [map flat_map]. rewrite parse_sequence_serialize_pair by assumption.
    now rewrite IH.
  - discriminate.
  - apply Forall_map. eapply Forall_impl; [|exact Hq]. apply serialize_pair_no_amp.
Qed.

Lemma serialize_pair_head (kv : jsstring * jsstring) :
  wf_pair kv -> exists x r, serialize_pair kv = x :: r /\ x <> 63.
Proof.
  intros [Hk _]. apply serialize_component_plain in Hk.
  unfold serialize_pair. destruct Hk as [|x r Hx _].
  - exists 61, (serialize_component (snd kv)). split; [reflexivity|discriminate].
  - exists x, (r ++ lit "=" ++ serialize_component (snd kv)).
    split; [reflexivity|apply Hx].
Qed.

Lemma toString_no_question_mark (q : t) :
  Forall wf_pair q -> startsWith (toString q) (lit "?") = false.
Proof.
  intros Hq.
  change (startsWith (join (lit "&") (map serialize_pair q)) (lit "?") = false).
  destruct Hq as [|kv q Hkv _]; [reflexivity|].
  destruct (serialize_pair_head kv Hkv) as (x & r & E & Hx).
  assert (Hj : exists r', join (lit "&") (map serialize_pair (kv :: q)) = x :: r').
  { cbn [map]. destruct (map serialize_pair q).
    - exists r. exact E.
    - rewrite join_cons2, E. eexists. reflexivity. }
  destruct Hj as [r' ->]. cbn.
  apply N.eqb_neq in Hx. now rewrite Hx.
Qed.

(** [new URLSearchParams(params.toString())] holds the pairs of [params]. *)
Lemma of_string_toString (q : t) :
  Forall wf_pair q -> of_string (toString q) = q.
Proof.
  intros Hq. unfold of_string.
  rewrite toString_no_question_mark by assumption.
  now apply parse_toString.
Qed.

End URLSearchParamsFacts.

Import URLSearchParamsFacts.

(** The pairs [packPoolLocator] serializes. *)
Lemma packPoolLocator_pairs (L : IValidPoolLocator) :
  Unicode.isWellFormed (vaddress L) = true ->
  Unicode.isWellFormed (vschema L) = true ->
  Unicode.isWellFormed (vtype L) = true ->
  packPoolLocator L =
  URLSearchParams.toString
    [ (EncodedPoolLocatorEnum.Address, vaddress L);
      (EncodedPoolLocatorEnum.Schema, vschema L);
      (EncodedPoolLocatorEnum.Type_, vtype L) ].
Proof.
  intros Ha Hs Ht. unfold packPoolLocator, URLSearchParams.of_record.
  cbn [fold_left fst snd].
  rewrite !(toUSVString_wf (vaddress L)), !(toUSVString_wf (vschema L)),
    !(toUSVString_wf (vtype L)) by assumption.
  reflexivity.
Qed.

(** C1, as stated, fails: a locator whose address holds an unpaired
    surrogate is valid, yet it does not come back: the serializer writes
    U+FFFD in place of the surrogate. *)
Lemma unpack_pack_locator_unpaired_surrogate :
  validatePoolLocator (asPoolLocator surrogate_locator) = true
  /\ unpackPoolLocator (packPoolLocator surrogate_locator)
     <> asPoolLocator surrogate_locator
  /\ address (unpackPoolLocator (packPoolLocator surrogate_locator))
     = Some [0xFFFD].
Proof.
  split; [reflexivity|]. split; [|reflexivity].
  intros H. apply (f_equal address) in H. vm_compute in H. discriminate H.
Qed.

(** C1, amended: for every valid locator [L] whose three fields are
    well-formed Unicode strings (no unpaired surrogate),
    [unpackPoolLocator(packPoolLocator(L))] has the address, the schema and
    the type of [L]. *)
Theorem unpack_pack_locator (L : IValidPoolLocator) :
  Unicode.isWellFormed (vaddress L) = true ->
  Unicode.isWellFormed (vschema L) = true ->
  Unicode.isWellFormed (vtype L) = true ->
  unpackPoolLocator (packPoolLocator L) = asPoolLocator L.
Proof.
  intros Ha Hs Ht. rewrite packPoolLocator_pairs by assumption.
  unfold unpackPoolLocator. rewrite of_string_toString.
  - reflexivity.
  - repeat constructor; assumption.
Qed.

Lemma unpack_pack_locator_witness :
  unpackPoolLocator
    (packPoolLocator (mkValidPoolLocator (lit "0x123456") (lit "ERC20WithData")
                        TokenType.FUNGIBLE))
  = {| address := Some (lit "0x123456");
       schema := Some (lit "ERC20WithData");
       type := Some TokenType.FUNGIBLE |}.
Proof.
  apply (unpack_pack_locator
           (mkValidPoolLocator (lit "0x123456") (lit "ERC20WithData")
              TokenType.FUNGIBLE)); reflexivity.
Defined.

(** ** Subscription names *)

(** What [unpackSubscriptionName] gives on a name that starts with the
    prefix and a colon, in terms of the rest of the name. *)
Lemma unpackSubscriptionName_prefixed (p rest : jsstring) :
  unpackSubscriptionName p (p ++ lit ":" ++ rest) =
  {| sub_prefix := p;
     sub_poolLocator := nth_error (split rest colon 2) 0;
     sub_event := nth_error (split rest colon 2) 1 |}.
Proof.
  unfold unpackSubscriptionName.
  rewrite app_assoc, startsWith_app.
  replace (List.length p + 1)%nat with (List.length (p ++ lit ":"))
    by (rewrite length_app; reflexivity).
  rewrite slice_app. reflexivity.
Qed.

(** C7: [unpackSubscriptionName("fly", "fly:LOCATORSTR:Transfer")] is
    [{prefix: "fly", poolLocator: "LOCATORSTR", event: "Transfer"}], and for
    every [data] that does not start with [prefix + ":"] the result (the
    function always returns one) has [poolLocator] and [event] undefined,
    as for [unpackSubscriptionName("fly", "other:x")]. *)
Theorem unpackSubscriptionName_soft_failure :
  unpackSubscriptionName (lit "fly") (lit "fly:LOCATORSTR:Transfer") =
    {| sub_prefix := lit "fly";
       sub_poolLocator := Some (lit "LOCATORSTR");
       sub_event := Some (lit "Transfer") |}
  /\ unpackSubscriptionName (lit "fly") (lit "other:x") =
       {| sub_prefix := lit "fly"; sub_poolLocator := None; sub_event := None |}
  /\ forall prefix data,
       ~ (exists rest, data = prefix ++ lit ":" ++ rest) ->
       unpackSubscriptionName prefix data =
         {| sub_prefix := prefix; sub_poolLocator := None; sub_event := None |}.
Proof.
  split; [reflexivity|]. split; [reflexivity|].
  intros prefix data H. unfold unpackSubscriptionName.
  destruct (startsWith data (prefix ++ lit ":")) eqn:E; [|reflexivity].
  exfalso. apply H. apply startsWith_spec in E as [r ->].
  exists r. now rewrite <- app_assoc.
Qed.

(** C10: for every prefix [p], locator string [l] without a colon and event
    [e], unpacking [p + ":" + l + ":" + e] (which is what
    [packSubscriptionName] builds) gives the locator [l] and, as event, only
    the portion of [e] before its first colon: whatever follows a second
    delimiter is dropped, so an event name with a colon in it is not
    recovered. *)
Theorem unpackSubscriptionName_truncates_event (p l e : jsstring) :
  ~ In colon l ->
  packSubscriptionName p l (Some e) = p ++ lit ":" ++ l ++ lit ":" ++ e
  /\ unpackSubscriptionName p (p ++ lit ":" ++ l ++ lit ":" ++ e) =
       {| sub_prefix := p;
          sub_poolLocator := Some l;
          sub_event := Some (before_first colon e) |}
  /\ (forall e1 e2, ~ In colon e1 -> before_first colon (e1 ++ lit ":" ++ e2) = e1)
  /\ (In colon e ->
      sub_event (unpackSubscriptionName p (packSubscriptionName p l (Some e)))
      <> Some e).
Proof.
  intros Hl.
  assert (Hu : unpackSubscriptionName p (p ++ lit ":" ++ l ++ lit ":" ++ e) =
       {| sub_prefix := p; sub_poolLocator := Some l;
          sub_event := Some (before_first colon e) |}).
  { rewrite unpackSubscriptionName_prefixed. unfold split.
    change (l ++ lit ":" ++ e) with (l ++ colon :: e).
    rewrite split_all_app by assumption.
    pose proof (split_all_hd colon e) as Hh.
    pose proof (split_all_nonempty colon e) as Hne.
    destruct (split_all colon e) as [|h t]; [congruence|].
    simpl in Hh. subst h. reflexivity. }
  split; [reflexivity|]. split; [exact Hu|]. split.
  - intros e1 e2 H. apply before_first_app. exact H.
  - intros He. change (packSubscriptionName p l (Some e))
      with (p ++ lit ":" ++ l ++ lit ":" ++ e).
    rewrite Hu. simpl. intros [= Heq].
    apply (before_first_notin colon e). now rewrite Heq.
Qed.

Lemma unpackSubscriptionName_truncates_event_witness :
  sub_event (unpackSubscriptionName (lit "fly")
               (lit "fly:address=0x1:Transfer:extra"))
  = Some (lit "Transfer").
Proof.
  pose proof (unpackSubscriptionName_truncates_event
                (lit "fly") (lit "address=0x1") (lit "Transfer:extra")) as H.
  destruct H as (_ & Hu & _).
  - vm_compute. intros H. repeat (destruct H as [H|H]; [discriminate H|]). exact H.
  - change (lit "fly:address=0x1:Transfer:extra")
      with (lit "fly" ++ lit ":" ++ lit "address=0x1" ++ lit ":" ++ lit "Transfer:extra").
    rewrite Hu. reflexivity.
Defined.

(** ** Schema names *)

(** C3: [getTokenSchema] maps (fungible, true) to ["ERC20WithData"],
    (fungible, false) to ["ERC20NoData"], (nonfungible, true) to
    ["ERC721WithData"] and (nonfungible, false) to ["ERC721NoData"]; with
    [withData] omitted it answers as for [true]. *)
Theorem getTokenSchema_table :
  getTokenSchema TokenType.FUNGIBLE (Some true) = lit "ERC20WithData"
  /\ getTokenSchema TokenType.FUNGIBLE (Some false) = lit "ERC20NoData"
  /\ getTokenSchema TokenType.NONFUNGIBLE (Some true) = lit "ERC721WithData"
  /\ getTokenSchema TokenType.NONFUNGIBLE (Some false) = lit "ERC721NoData"
  /\ forall type, getTokenSchema type None = getTokenSchema type (Some true).
Proof. repeat split. Qed.

(** C9, as stated, fails: it is not so that every type string other than
    ["fungible"] and ["nonfungible"] is kept from a canonical schema name;
    [getTokenSchema("funkible")] is ["ERC721WithData"]. *)
Lemma getTokenSchema_unrecognized_not_rejected :
  ~ (forall type withData,
        type <> TokenType.FUNGIBLE -> type <> TokenType.NONFUNGIBLE ->
        ~ In (getTokenSchema type withData) canonical_schemas).
Proof.
  intros H.
  apply (H funkible None); [discriminate | discriminate |].
  right; right; left. reflexivity.
Qed.

(** C9, amended: [getTokenSchema] tests its argument against ["fungible"]
    only and validates nothing; every other string, recognized or not,
    gets the ERC721 name that [withData] selects. *)
Theorem getTokenSchema_other_types (type : jsstring) (withData : option bool) :
  type <> TokenType.FUNGIBLE ->
  getTokenSchema type withData =
    match withData with
    | Some false => lit "ERC721NoData"
    | _ => lit "ERC721WithData"
    end.
Proof.
  intros H. unfold getTokenSchema.
  rewrite (str_eqb_neq _ _ H). now destruct withData as [[|]|].
Qed.

Lemma getTokenSchema_other_types_witness :
  funkible <> TokenType.FUNGIBLE
  /\ getTokenSchema funkible None = lit "ERC721WithData".
Proof.
  split; [discriminate|].
  apply (getTokenSchema_other_types funkible None). discriminate.
Defined.

(** ** Locator validity *)

(** C8: [validatePoolLocator] is false exactly when at least one of
    [address], [schema], [type] is null, and true exactly when none is. *)
Theorem validatePoolLocator_iff (l : IPoolLocator) :
  (validatePoolLocator l = false <->
     address l = None \/ schema l = None \/ type l = None)
  /\ (validatePoolLocator l = true <->
     address l <> None /\ schema l <> None /\ type l <> None).
Proof.
  destruct l as [[a|] [s|] [t|]]; unfold validatePoolLocator; simpl;
    repeat split; intros; try discriminate; try tauto;
    repeat match goal with
           | H : _ \/ _ |- _ => destruct H
           | H : _ /\ _ |- _ => destruct H
           end; congruence.
Qed.

(** ** The empty payload *)

Lemma decodeHex_decodedText (data : jsstring) :
  decodeHex data =
  if str_eqb (decodedText data) [0] then lit "" else decodedText data.
Proof. reflexivity. Qed.

(** C5: [encodeHex("")] is ["0x00"] (and no string at all encodes to
    ["0x"]), [decodeHex("0x00")] is the empty string, and [decodeHex] gives
    the empty string for every input whose decoded text is exactly one NUL
    character. *)
Theorem encodeHex_empty_sentinel :
  encodeHex (lit "") = lit "0x00"
  /\ (forall s, encodeHex s <> lit "0x")
  /\ decodeHex (lit "0x00") = lit ""
  /\ (forall data, decodedText data = [0] -> decodeHex data = lit "").
Proof.
  split; [reflexivity|]. split; [|split; [reflexivity|]].
  - intros s. unfold encodeHex.
    destruct (str_eqb (Buffer.toString_hex (Buffer.from_utf8 s)) (lit "")) eqn:E;
      [discriminate|].
    destruct (Buffer.toString_hex (Buffer.from_utf8 s)); discriminate.
  - intros data H. rewrite decodeHex_decodedText, H. reflexivity.
Qed.

Lemma encodeHex_empty_sentinel_witness :
  decodedText (lit "00") = [0] /\ decodeHex (lit "00") = lit "".
Proof.
  split; [reflexivity|].
  apply (proj2 (proj2 (proj2 encodeHex_empty_sentinel)) (lit "00")).
  reflexivity.
Defined.

Lemma decodeHex_encodeHex_witness :
  decodeHex (encodeHex (lit "tx123")) = lit "tx123".
Proof.
  apply (decodeHex_encodeHex (lit "tx123")); [reflexivity|].
  cbn. intros H. repeat (destruct H as [H|H]; [discriminate H|]). exact H.
Defined.

Lemma unpackSubscriptionName_soft_failure_witness :
  unpackSubscriptionName (lit "fly") (lit "fly_other:x") =
  {| sub_prefix := lit "fly"; sub_poolLocator := None; sub_event := None |}.
Proof.
  apply (proj2 (proj2 unpackSubscriptionName_soft_failure) (lit "fly") (lit "fly_other:x")).
  intros [rest H]. discriminate H.
Defined.

(** ** The legacy schema key *)

(** C6: when the parsed locator string has no [schema] key but has the
    legacy [standard] key, the [schema] field of the unpacked locator is the
    value of the legacy key, and the locator is valid once [address] and
    [type] are present too; when the [schema] key is present its value is
    the one taken, whatever the legacy key holds. *)
Theorem unpackPoolLocator_legacy_key (data : jsstring) :
  let encoded := URLSearchParams.of_string data in
  (forall v,
      URLSearchParams.get encoded EncodedPoolLocatorEnum.Schema = None ->
      URLSearchParams.get encoded EncodedPoolLocatorEnum.Standard = Some v ->
      schema (unpackPoolLocator data) = Some v
      /\ (URLSearchParams.get encoded EncodedPoolLocatorEnum.Address <> None ->
          URLSearchParams.get encoded EncodedPoolLocatorEnum.Type_ <> None ->
          validatePoolLocator (unpackPoolLocator data) = true))
  /\ (forall s legacy,
      URLSearchParams.get encoded EncodedPoolLocatorEnum.Schema = Some s ->
      URLSearchParams.get encoded EncodedPoolLocatorEnum.Standard = legacy ->
      schema (unpackPoolLocator data) = Some s).
Proof.
  intros encoded. split.
  - intros v Hs Hl. unfold unpackPoolLocator. fold encoded.
    unfold validatePoolLocator. cbn [address schema type].
    rewrite Hs, Hl. cbn [nullish]. split; [reflexivity|].
    intros Ha Ht.
    destruct (URLSearchParams.get encoded EncodedPoolLocatorEnum.Address);
      [|congruence].
    destruct (URLSearchParams.get encoded EncodedPoolLocatorEnum.Type_);
      [reflexivity|congruence].
  - intros s legacy Hs _. unfold unpackPoolLocator. fold encoded.
    cbn [schema]. now rewrite Hs.
Qed.

Lemma unpackPoolLocator_legacy_key_witness :
  unpackPoolLocator (lit "address=0x123456&standard=ERC20&type=fungible") =
    {| address := Some (lit "0x123456");
       schema := Some (lit "ERC20");
       type := Some (lit "fungible") |}
  /\ validatePoolLocator
       (unpackPoolLocator (lit "address=0x123456&standard=ERC20&type=fungible"))
     = true
  /\ schema (unpackPoolLocator
               (lit "address=0x123456&standard=ERC20&schema=ERC20NoData&type=fungible"))
     = Some (lit "ERC20NoData").
Proof.
  split; [reflexivity|]. split.
  - apply (proj1 (unpackPoolLocator_legacy_key
                    (lit "address=0x123456&standard=ERC20&type=fungible"))
             (lit "ERC20")); [reflexivity | reflexivity | discriminate | discriminate].
  - apply (proj2 (unpackPoolLocator_legacy_key
                    (lit "address=0x123456&standard=ERC20&schema=ERC20NoData&type=fungible"))
             (lit "ERC20NoData") (Some (lit "ERC20"))); reflexivity.
Defined.

(** ** Arguments of a mint *)

(** C2: for the mint of amount ["20"] to ["0x123"] with no data, the
    arguments are [["0x123", "20", "0x00"]] under ERC20WithData and
    [["0x123", "20"]] under ERC20NoData; and whatever the fields, a result
    has the data argument exactly when the schema is a with-data one. *)
Theorem buildArguments_mint :
  Resolver.buildArguments (lit "ERC20WithData") Resolver.mint mint_request
    = Some [lit "0x123"; lit "20"; lit "0x00"]
  /\ Resolver.buildArguments (lit "ERC20NoData") Resolver.mint mint_request
    = Some [lit "0x123"; lit "20"]
  /\ forall schemaName fields args,
      Resolver.buildArguments schemaName Resolver.mint fields = Some args ->
      (Resolver.schemaWithData schemaName = Some true
       /\ exists d, args = [Resolver.f_to fields; Resolver.f_amount fields; d])
      \/ (Resolver.schemaWithData schemaName = Some false
          /\ args = [Resolver.f_to fields; Resolver.f_amount fields]).
Proof.
  split; [reflexivity|]. split; [reflexivity|].
  intros schemaName fields args. unfold Resolver.buildArguments.
  destruct (Resolver.schemaWithData schemaName) as [[|]|]; intros [= <-].
  - left. split; [reflexivity|]. eexists. reflexivity.
  - right. split; reflexivity.
Qed.

Lemma buildArguments_mint_witness :
  let fields := Resolver.mkFields (lit "0x123") (lit "20") (Some (lit "tx123")) in
  Resolver.buildArguments (lit "ERC20NoData") Resolver.mint fields
    = Some [lit "0x123"; lit "20"]
  /\ ((Resolver.schemaWithData (lit "ERC20NoData") = Some true
       /\ exists d, [lit "0x123"; lit "20"] = [lit "0x123"; lit "20"; d])
      \/ (Resolver.schemaWithData (lit "ERC20NoData") = Some false
          /\ [lit "0x123"; lit "20"] = [lit "0x123"; lit "20"])).
Proof.
  intros fields. split; [reflexivity|].
  apply (proj2 (proj2 buildArguments_mint) (lit "ERC20NoData") fields).
  reflexivity.
Defined.

(** ** The values of the test suites *)

(** The locator of the fungible pool at [0x123456], with the schema that
    [getTokenSchema] resolves by default, is the pool id the tests expect;
    it unpacks to a valid locator. *)
Example packPoolLocator_test_pool :
  packPoolLocator
    {| vaddress := lit "0x123456";
       vschema := getTokenSchema TokenType.FUNGIBLE None;
       vtype := TokenType.FUNGIBLE |}
  = lit "address=0x123456&schema=ERC20WithData&type=fungible"
  /\ validatePoolLocator
       (unpackPoolLocator (lit "address=0x123456&schema=ERC20WithData&type=fungible"))
     = true.
Proof. split; reflexivity. Qed.

(** Reserved characters and non-ASCII text in a field are percent-encoded. *)
Example packPoolLocator_reserved :
  packPoolLocator
    {| vaddress := lit "a b&c=d"; vschema := [0xE9]; vtype := lit "fun:gible" |}
  = lit "address=a+b%26c%3Dd&schema=%C3%A9&type=fun%3Agible".
Proof. reflexivity. Qed.

(** The round trip of [decodeHex] after [encodeHex] does fail on the single
    NUL, and an unpaired surrogate is not text that UTF-8 can carry. *)
Example decodeHex_encodeHex_outside :
  decodeHex (encodeHex [0]) = lit ""
  /\ decodeHex (encodeHex [97; 0; 98]) = [97; 0; 98]
  /\ decodeHex (encodeHex [0xD800]) = [0xFFFD].
Proof. repeat split. Qed.

(** Text outside ASCII and outside the basic plane. *)
Example encodeHex_non_ascii :
  encodeHex [0xE9; 0x20AC; 0xD83D; 0xDE00] = lit "0xc3a9e282acf09f9880".
Proof. reflexivity. Qed.

(* ================================================================= *)
(** * Further properties *)

(** A closed list does not hold a given element. *)
Ltac not_in :=
  let H := fresh in
  intros H; vm_compute in H;
  repeat (destruct H as [H|H]; [discriminate H|]); exact H.

(** A closed list of code units. *)
Ltac all_code_units :=
  repeat (apply Forall_cons; [reflexivity|]); apply Forall_nil.

(** ** Subscription names: round trip and what unpacking returns *)

Lemma split_all_colon_free (c : N) (s : jsstring) :
  Forall (fun piece => ~ In c piece) (split_all c s).
Proof.
  induction s as [|x s IH]; cbn [split_all].
  - repeat constructor. intros [].
  - destruct (N.eqb_spec x c) as [->|Hx].
    + constructor; [intros []|exact IH].
    + destruct (split_all c s) as [|h t]; [repeat constructor; intros [H|[]]; congruence|].
      inversion IH as [|? ? Hh Ht]; subst. constructor; [|exact Ht].
      intros [H|H]; [congruence|tauto].
Qed.

(** Joining the pieces with the separator gives the string back. *)
Lemma join_split_all (c : N) (s : jsstring) : join [c] (split_all c s) = s.
Proof.
  induction s as [|x s IH]; [reflexivity|]. cbn [split_all].
  pose proof (split_all_nonempty c s) as Hne.
  destruct (N.eqb_spec x c) as [->|Hx].
  - destruct (split_all c s) as [|h t]; [congruence|].
    change (join [c] ([] :: h :: t)) with ([] ++ [c] ++ join [c] (h :: t)).
    rewrite IH. reflexivity.
  - destruct (split_all c s) as [|h t]; [congruence|].
    destruct t as [|h' t].
    + cbn [join] in *. now rewrite IH.
    + change (join [c] ((x :: h) :: h' :: t)) with (x :: (h ++ [c] ++ join [c] (h' :: t))).
      change (join [c] (h :: h' :: t)) with (h ++ [c] ++ join [c] (h' :: t)) in IH.
      now rewrite IH.
Qed.

(** How [unpackSubscriptionName] reads its parts off the pieces of the
    remainder. *)
Lemma unpackSubscriptionName_parts (p data : jsstring) :
  (startsWith data (p ++ lit ":") = false
   /\ sub_poolLocator (unpackSubscriptionName p data) = None
   /\ sub_event (unpackSubscriptionName p data) = None)
  \/ (exists rest, data = p ++ lit ":" ++ rest
      /\ sub_poolLocator (unpackSubscriptionName p data)
         = nth_error (split_all colon rest) 0
      /\ sub_event (unpackSubscriptionName p data)
         = nth_error (split_all colon rest) 1).
Proof.
  destruct (startsWith data (p ++ lit ":")) eqn:E.
  - right. apply startsWith_spec in E as [rest ->]. exists rest.
    rewrite <- app_assoc. split; [reflexivity|].
    rewrite unpackSubscriptionName_prefixed. unfold split. cbn [sub_poolLocator sub_event].
    destruct (split_all colon rest) as [|a [|b t]]; repeat split; reflexivity.
  - left. unfold unpackSubscriptionName. rewrite E. repeat split; reflexivity.
Qed.

(** Unpacking a packed name, when neither the locator nor the event holds
    the delimiter. *)
Lemma unpack_pack_subscription (p l : jsstring) (event : option jsstring) :
  ~ In colon l ->
  (forall e, event = Some e -> ~ In colon e) ->
  unpackSubscriptionName p (packSubscriptionName p l event) =
    {| sub_prefix := p; sub_poolLocator := Some l; sub_event := event |}.
Proof.
  intros Hl He. destruct event as [e|].
  - change (packSubscriptionName p l (Some e)) with (p ++ lit ":" ++ l ++ colon :: e).
    rewrite unpackSubscriptionName_prefixed. unfold split.
    rewrite split_all_app by assumption.
    rewrite split_all_none by (apply He; reflexivity). reflexivity.
  - change (packSubscriptionName p l None) with (p ++ lit ":" ++ l).
    rewrite unpackSubscriptionName_prefixed. unfold split.
    rewrite split_all_none by assumption. reflexivity.
Qed.

(** X1: for every prefix, every locator string without a colon and every
    event that is absent or without a colon, [unpackSubscriptionName] gives
    back the three arguments of [packSubscriptionName]; an absent event
    comes back undefined. *)
Theorem subscription_name_roundtrip (p l : jsstring) (event : option jsstring) :
  ~ In colon l ->
  (forall e, event = Some e -> ~ In colon e) ->
  unpackSubscriptionName p (packSubscriptionName p l event) =
    {| sub_prefix := p; sub_poolLocator := Some l; sub_event := event |}.
Proof. apply unpack_pack_subscription. Qed.

Lemma subscription_name_roundtrip_witness :
  unpackSubscriptionName (lit "fly")
    (packSubscriptionName (lit "fly") (lit "LOCATORSTR") (Some (lit "Transfer")))
  = {| sub_prefix := lit "fly";
       sub_poolLocator := Some (lit "LOCATORSTR");
       sub_event := Some (lit "Transfer") |}.
Proof.
  apply (subscription_name_roundtrip (lit "fly") (lit "LOCATORSTR")
           (Some (lit "Transfer"))).
  - not_in.
  - intros e [= <-]. not_in.
Defined.

(** X2: [packSubscriptionName] escapes nothing: when the locator string
    holds a colon and no event is given, unpacking returns only the part of
    the locator before its first colon, and reports an event. *)
Theorem subscription_name_locator_with_colon (p loc : jsstring) :
  In colon loc ->
  sub_poolLocator (unpackSubscriptionName p (packSubscriptionName p loc None))
    = Some (before_first colon loc)
  /\ sub_poolLocator (unpackSubscriptionName p (packSubscriptionName p loc None))
    <> Some loc
  /\ sub_event (unpackSubscriptionName p (packSubscriptionName p loc None)) <> None.
Proof.
  intros Hin.
  change (packSubscriptionName p loc None) with (p ++ lit ":" ++ loc).
  rewrite unpackSubscriptionName_prefixed. unfold split. cbn [sub_poolLocator sub_event].
  pose proof (split_all_hd colon loc) as Hh.
  destruct (split_all colon loc) as [|h t] eqn:E.
  { now destruct (split_all_nonempty colon loc). }
  cbn [hd] in Hh. subst h. cbn [firstn nth_error].
  split; [reflexivity|]. split.
  - intros [= Heq]. apply (before_first_notin colon loc). now rewrite Heq.
  - destruct t as [|h' t]; [|discriminate].
    exfalso. pose proof (join_split_all colon loc) as J. rewrite E in J.
    cbn [join] in J. apply (before_first_notin colon loc). now rewrite J.
Qed.

Lemma subscription_name_locator_with_colon_witness :
  sub_poolLocator
    (unpackSubscriptionName (lit "fly") (packSubscriptionName (lit "fly") (lit "a:b") None))
  = Some (lit "a").
Proof.
  apply (subscription_name_locator_with_colon (lit "fly") (lit "a:b")).
  right. left. reflexivity.
Defined.

(** X3: whatever the input, the pool locator and the event that
    [unpackSubscriptionName] returns hold no colon, and an event is returned
    only together with a pool locator. *)
Theorem unpackSubscriptionName_parts_colon_free (p data : jsstring) :
  (forall l, sub_poolLocator (unpackSubscriptionName p data) = Some l -> ~ In colon l)
  /\ (forall e, sub_event (unpackSubscriptionName p data) = Some e ->
        ~ In colon e /\ sub_poolLocator (unpackSubscriptionName p data) <> None).
Proof.
  destruct (unpackSubscriptionName_parts p data) as [(_ & -> & ->)|(rest & _ & -> & ->)].
  - split; [discriminate|]. intros e H. discriminate H.
  - pose proof (split_all_colon_free colon rest) as HF. rewrite Forall_forall in HF.
    split.
    + intros l H. apply HF. eapply nth_error_In, H.
    + intros e H. split; [apply HF; eapply nth_error_In, H|].
      destruct (split_all colon rest); [destruct 1 |]; discriminate.
Qed.

Lemma unpackSubscriptionName_parts_colon_free_witness :
  ~ In colon (lit "LOC").
Proof.
  apply (proj1 (unpackSubscriptionName_parts_colon_free (lit "fly") (lit "fly:LOC:Ev"))
           (lit "LOC")).
  reflexivity.
Defined.

(** X4: what [unpackSubscriptionName] returns is read off the input: with a
    pool locator and no event, the input is exactly
    [packSubscriptionName(prefix, poolLocator)]; with an event, the input is
    [packSubscriptionName(prefix, poolLocator, event)], possibly followed by
    a further colon and more text, which is dropped. *)
Theorem unpackSubscriptionName_sound (p data l : jsstring) :
  sub_poolLocator (unpackSubscriptionName p data) = Some l ->
  match sub_event (unpackSubscriptionName p data) with
  | None => data = packSubscriptionName p l None
  | Some e =>
      exists rest, data = packSubscriptionName p l (Some e) ++ rest
                   /\ (rest = [] \/ exists r, rest = colon :: r)
  end.
Proof.
  destruct (unpackSubscriptionName_parts p data) as [(_ & -> & ->)|(rest & -> & -> & ->)].
  - discriminate.
  - pose proof (join_split_all colon rest) as J.
    destruct (split_all colon rest) as [|a [|b t]]; cbn [nth_error]; intros [= ->].
    + cbn [join] in J. now subst rest.
    + destruct t as [|c t].
      * exists []. split; [|now left]. rewrite app_nil_r.
        change (join [colon] [l; b]) with (l ++ lit ":" ++ b) in J. now rewrite <- J.
      * exists (colon :: join [colon] (c :: t)). split; [|right; eauto].
        change (join [colon] (l :: b :: c :: t))
          with (l ++ lit ":" ++ b ++ colon :: join [colon] (c :: t)) in J.
        rewrite <- J. unfold packSubscriptionName. cbn [join].
        now rewrite <- !app_assoc.
Qed.

Lemma unpackSubscriptionName_sound_witness :
  lit "fly:LOC" = packSubscriptionName (lit "fly") (lit "LOC") None.
Proof.
  exact (unpackSubscriptionName_sound (lit "fly") (lit "fly:LOC") (lit "LOC") eq_refl).
Defined.

(** X5: a name packed under a prefix that continues ours with a character
    other than a colon is not taken for one of ours: both parts come back
    undefined. *)
Theorem unpackSubscriptionName_longer_prefix
  (p : jsstring) (x : N) (r l : jsstring) (event : option jsstring) :
  x <> colon ->
  unpackSubscriptionName p (packSubscriptionName (p ++ x :: r) l event)
  = {| sub_prefix := p; sub_poolLocator := None; sub_event := None |}.
Proof.
  intros Hx. unfold unpackSubscriptionName.
  replace (startsWith _ (p ++ lit ":")) with false; [reflexivity|].
  symmetry. destruct (startsWith _ _) eqn:E; [|reflexivity].
  apply startsWith_spec in E as [rest E]. exfalso.
  assert (E' : exists tl, (p ++ x :: r) ++ tl = (p ++ lit ":") ++ rest).
  { destruct event; eexists; rewrite <- E; unfold packSubscriptionName;
      cbn [join]; reflexivity. }
  destruct E' as [tl E']. rewrite <- !app_assoc in E'.
  apply app_inv_head in E'. injection E' as E' _. contradiction.
Qed.

Lemma unpackSubscriptionName_longer_prefix_witness :
  unpackSubscriptionName (lit "fly")
    (packSubscriptionName (lit "fly2") (lit "LOC") (Some (lit "Transfer")))
  = {| sub_prefix := lit "fly"; sub_poolLocator := None; sub_event := None |}.
Proof.
  apply (unpackSubscriptionName_longer_prefix (lit "fly") 50 [] (lit "LOC")
           (Some (lit "Transfer"))).
  discriminate.
Defined.

(** ** Strings that are not well-formed *)

Module UnicodeMore.
Import Unicode.

Lemma isWellFormed_code_units (s : jsstring) :
  isWellFormed s = true -> code_units s.
Proof.
  intros H. rewrite <- (toUSVString_wf s H).
  apply code_points_scalar in H. unfold toUSVString, code_units.
  induction H as [|cp cps Hcp _ IH]; [constructor|].
  cbn [flat_map]. apply Forall_app. split; [|exact IH].
  unfold utf16_units, scalar in *.
  destruct (N.ltb_spec cp 0x10000); repeat (apply Forall_cons || apply Forall_nil); nlia.
Qed.

(** The code points of any string are scalar values. *)
Lemma code_points_scalar_len (n : nat) (s : jsstring) :
  (List.length s <= n)%nat -> code_units s -> Forall scalar (code_points s).
Proof.
  revert s. induction n as [|n IH]; intros s Hn Hs.
  - destruct s; [constructor | simpl in Hn; lia].
  - destruct s as [|u r]; [constructor|].
    inversion Hs as [|? ? Hu Hr]; subst. cbn [code_points].
    assert (Hrep : scalar REPLACEMENT) by (right; unfold REPLACEMENT; lia).
    assert (IHr : Forall scalar (code_points r)) by (apply IH; [simpl in Hn; lia|exact Hr]).
    destruct (is_high u) eqn:Eh.
    + destruct r as [|l r']; [constructor; [exact Hrep|constructor]|].
      destruct (is_low l) eqn:El.
      * apply is_high_spec in Eh. apply is_low_spec in El.
        inversion Hr; subst.
        constructor; [right; lia | apply IH; [simpl in Hn; lia | assumption]].
      * constructor; assumption.
    + destruct (is_low u) eqn:El; constructor; try assumption.
      apply is_high_false in Eh. apply is_low_false in El. unfold scalar. lia.
Qed.

Lemma code_points_scalar_any (s : jsstring) :
  code_units s -> Forall scalar (code_points s).
Proof. apply (code_points_scalar_len (List.length s)). lia. Qed.

Lemma isWellFormed_utf16 (cps : list N) :
  Forall scalar cps -> isWellFormed (flat_map utf16_units cps) = true.
Proof.
  induction 1 as [|cp cps Hcp _ IH]; [reflexivity|].
  cbn [flat_map]. unfold utf16_units, scalar in *.
  destruct (N.ltb_spec cp 0x10000) as [Hlt|Hge]; cbn [app isWellFormed].
  - replace (is_high cp) with false by (symmetry; apply is_high_false; lia).
    replace (is_low cp) with false by (symmetry; apply is_low_false; lia).
    apply N.ltb_lt in Hlt. now rewrite Hlt, IH.
  - replace (is_high _) with true by (symmetry; apply is_high_spec; nlia).
    replace (is_low _) with true by (symmetry; apply is_low_spec; nlia).
    exact IH.
Qed.

Lemma code_points_utf16 (cps : list N) :
  Forall scalar cps -> code_points (flat_map utf16_units cps) = cps.
Proof.
  induction 1 as [|cp cps Hcp _ IH]; [reflexivity|].
  cbn [flat_map]. unfold utf16_units, scalar in *.
  destruct (N.ltb_spec cp 0x10000) as [Hlt|Hge]; cbn [app code_points].
  - replace (is_high cp) with false by (symmetry; apply is_high_false; lia).
    replace (is_low cp) with false by (symmetry; apply is_low_false; lia).
    now rewrite IH.
  - replace (is_high _) with true by (symmetry; apply is_high_spec; nlia).
    replace (is_low _) with true by (symmetry; apply is_low_spec; nlia).
    rewrite IH. f_equal. nlia.
Qed.

(** The conversion to a scalar value string gives a well-formed string, with
    the same UTF-8 bytes. *)
Lemma toUSVString_isWellFormed (s : jsstring) :
  code_units s -> isWellFormed (toUSVString s) = true.
Proof. intros H. apply isWellFormed_utf16, code_points_scalar_any, H. Qed.

Lemma from_utf8_toUSVString (s : jsstring) :
  code_units s -> Buffer.from_utf8 (toUSVString s) = Buffer.from_utf8 s.
Proof.
  intros H. unfold Buffer.from_utf8, toUSVString.
  now rewrite code_points_utf16 by now apply code_points_scalar_any.
Qed.

Lemma utf8_roundtrip_any (s : jsstring) :
  code_units s -> Buffer.toString_utf8 (Buffer.from_utf8 s) = toUSVString s.
Proof.
  intros H. unfold Buffer.toString_utf8, Buffer.from_utf8.
  now rewrite decode_utf8 by now apply code_points_scalar_any.
Qed.

Lemma from_utf8_range_any (s : jsstring) :
  code_units s -> Forall is_byte (Buffer.from_utf8 s).
Proof.
  intros H. rewrite <- from_utf8_toUSVString by exact H.
  apply from_utf8_range, toUSVString_isWellFormed, H.
Qed.

(** Only the string made of one NUL converts to it. *)
Lemma toUSVString_NUL (s : jsstring) : toUSVString s = [0] -> s = [0].
Proof.
  unfold toUSVString. destruct s as [|u r]; [discriminate|].
  cbn [code_points].
  assert (Hrep : forall cps, flat_map utf16_units (REPLACEMENT :: cps) <> [0]).
  { intros cps. cbn. discriminate. }
  destruct (is_high u) eqn:Eh.
  - destruct r as [|l r']; [intros H; now apply Hrep in H|].
    destruct (is_low l) eqn:El; [|intros H; now apply Hrep in H].
    cbn [flat_map]. unfold utf16_units at 1.
    replace (_ <? 0x10000) with false by (symmetry; apply N.ltb_ge; lia).
    cbn [app]. discriminate.
  - destruct (is_low u) eqn:El; [intros H; now apply Hrep in H|].
    cbn [flat_map]. unfold utf16_units at 1.
    destruct (N.ltb_spec u 0x10000) as [_|_]; cbn [app].
    + intros [= -> H]. f_equal.
      destruct r as [|v r']; [reflexivity|]. exfalso. revert H. cbn [code_points].
      destruct (is_high v).
      * destruct r' as [|l r'']; [discriminate|]. destruct (is_low l).
        -- cbn [flat_map]. unfold utf16_units at 1.
           destruct (_ <? 0x10000); discriminate.
        -- discriminate.
      * destruct (is_low v); [discriminate|]. cbn [flat_map]. unfold utf16_units at 1.
        destruct (v <? 0x10000); discriminate.
    + discriminate.
Qed.

End UnicodeMore.

Import UnicodeMore.

(** ** The hex payload *)

Module HexMore.

Lemma encodeHex_payload (s : jsstring) :
  encodeHex s = lit "0x" ++ Buffer.toString_hex (payload_bytes s).
Proof.
  destruct s as [|u r]; [reflexivity|].
  now rewrite encodeHex_nonempty by discriminate.
Qed.

Lemma payload_bytes_range (s : jsstring) :
  code_units s -> Forall is_byte (payload_bytes s).
Proof.
  intros H. destruct s as [|u r].
  - repeat constructor.
  - now apply from_utf8_range_any.
Qed.

Lemma payload_bytes_nonempty (s : jsstring) : payload_bytes s <> [].
Proof.
  destruct s as [|u r]; [discriminate|]. apply from_utf8_nonempty. discriminate.
Qed.

Lemma hex_digit_lower (d : N) : d < 16 -> lower_hex (Buffer.hex_digit d) = true.
Proof.
  intros H. unfold lower_hex, Buffer.hex_digit.
  rewrite orb_true_iff, !andb_true_iff, !N.leb_le.
  destruct (N.ltb_spec d 10); lia.
Qed.

Lemma toString_hex_shape (bs : list N) :
  Forall is_byte bs ->
  List.length (Buffer.toString_hex bs) = (2 * List.length bs)%nat
  /\ Forall (fun c => lower_hex c = true) (Buffer.toString_hex bs).
Proof.
  induction 1 as [|b bs Hb _ [IHl IHf]]; [split; [reflexivity|constructor]|].
  unfold is_byte in Hb.
  change (Buffer.toString_hex (b :: bs))
    with (Buffer.hex_digit (b / 16) :: Buffer.hex_digit (b mod 16) :: Buffer.toString_hex bs).
  split.
  - cbn [List.length]. rewrite IHl. lia.
  - repeat constructor; [apply hex_digit_lower; nlia | apply hex_digit_lower; nlia | exact IHf].
Qed.

(** Reading hexadecimal digits followed by something unreadable. *)
Lemma from_hex_junk (bs : list N) (junk : jsstring) :
  Forall is_byte bs -> unreadable junk ->
  Buffer.from_hex (Buffer.toString_hex bs ++ junk) = bs.
Proof.
  intros Hbs Hj. induction Hbs as [|b bs Hb _ IH].
  - cbn [Buffer.toString_hex flat_map app].
    destruct junk as [|c1 [|c2 r]]; [reflexivity|reflexivity|].
    cbn [Buffer.from_hex]. cbn [unreadable] in Hj.
    destruct Hj as [-> | ->]; [reflexivity|].
    now destruct (Buffer.unhex c1).
  - unfold is_byte in Hb.
    change (Buffer.toString_hex (b :: bs) ++ junk)
      with (Buffer.hex_digit (b / 16) :: Buffer.hex_digit (b mod 16)
              :: (Buffer.toString_hex bs ++ junk)).
    cbn [Buffer.from_hex]. rewrite !unhex_hex_digit by nlia.
    rewrite IH. f_equal. nlia.
Qed.

Lemma replace_0x_prefix (h : jsstring) :
  replace (lit "0x" ++ h) (lit "0x") (lit "") = h.
Proof. reflexivity. Qed.

Lemma startsWith_0x_short (c : N) : startsWith [c] (lit "0x") = false.
Proof.
  change (startsWith [c] (lit "0x")) with ((c =? 48) && false).
  apply andb_false_r.
Qed.

Lemma startsWith_0x_no_x (c d : N) (r : jsstring) :
  d <> 120 -> startsWith (c :: d :: r) (lit "0x") = false.
Proof.
  intros H.
  change (startsWith (c :: d :: r) (lit "0x")) with ((c =? 48) && ((d =? 120) && true)).
  apply N.eqb_neq in H. rewrite H. apply andb_false_r.
Qed.

(** Without an [x] there is nothing to replace. *)
Lemma replace_0x_absent (s : jsstring) :
  ~ In 120 s -> replace s (lit "0x") (lit "") = s.
Proof.
  induction s as [|c s IH]; intros H; [reflexivity|].
  cbn [replace]. 
  assert (E : startsWith (c :: s) (lit "0x") = false).
  { destruct s as [|d s']; [apply startsWith_0x_short|].
    apply startsWith_0x_no_x. intros ->. apply H. right. now left. }
  rewrite E. f_equal. apply IH. intros Hin. apply H. now right.
Qed.

(** The first [0x] is the one removed, wherever it stands. *)
Lemma replace_0x_first (a b : jsstring) :
  ~ In 120 a -> replace (a ++ lit "0x" ++ b) (lit "0x") (lit "") = a ++ b.
Proof.
  induction a as [|c a IH]; intros H; [reflexivity|].
  cbn [app replace].
  assert (E : startsWith (c :: a ++ lit "0x" ++ b) (lit "0x") = false).
  { destruct a as [|d a']; apply startsWith_0x_no_x.
    - discriminate.
    - intros ->. apply H. right. now left. }
  rewrite E. f_equal. apply IH. intros Hin. apply H. now right.
Qed.

End HexMore.

Import HexMore.

(** X6: for every string, [encodeHex] returns [0x] followed by lower-case
    hexadecimal digits, two for each UTF-8 byte of the text (two for the
    empty text): at least two digits, and an even number of them. *)
Theorem encodeHex_shape (s : jsstring) :
  code_units s ->
  exists digits,
    encodeHex s = lit "0x" ++ digits
    /\ List.length digits = (2 * List.length (payload_bytes s))%nat
    /\ (2 <= List.length digits)%nat
    /\ Forall (fun c => lower_hex c = true) digits.
Proof.
  intros Hs. exists (Buffer.toString_hex (payload_bytes s)).
  destruct (toString_hex_shape _ (payload_bytes_range s Hs)) as [Hl Hf].
  split; [apply encodeHex_payload|]. split; [exact Hl|]. split; [|exact Hf].
  rewrite Hl. pose proof (payload_bytes_nonempty s).
  destruct (payload_bytes s); [congruence|cbn [List.length]; lia].
Qed.

Lemma encodeHex_shape_witness :
  exists digits,
    encodeHex (lit "tx123") = lit "0x" ++ digits
    /\ List.length digits = (2 * List.length (payload_bytes (lit "tx123")))%nat
    /\ (2 <= List.length digits)%nat
    /\ Forall (fun c => lower_hex c = true) digits.
Proof. apply (encodeHex_shape (lit "tx123")). all_code_units. Defined.

Lemma decodedText_encodeHex_any (s : jsstring) (junk : jsstring) :
  code_units s -> unreadable junk ->
  decodedText (encodeHex s ++ junk) =
  match s with [] => [0] | _ => Unicode.toUSVString s end.
Proof.
  intros Hs Hj. unfold decodedText. rewrite encodeHex_payload, <- app_assoc.
  rewrite replace_0x_prefix, from_hex_junk by (auto using payload_bytes_range).
  destruct s as [|u r]; [reflexivity|].
  cbn [payload_bytes]. now apply utf8_roundtrip_any.
Qed.

(** X7: for every string [s], [decodeHex(encodeHex(s))] is [s] with each
    unpaired surrogate replaced by U+FFFD, except that the string made of
    one NUL comes back empty. *)
Theorem decodeHex_encodeHex_any (s : jsstring) :
  code_units s ->
  decodeHex (encodeHex s) =
  if str_eqb s [0] then lit "" else Unicode.toUSVString s.
Proof.
  intros Hs. rewrite decodeHex_decodedText.
  pose proof (decodedText_encodeHex_any s [] Hs I) as E.
  rewrite app_nil_r in E. rewrite E. clear E.
  destruct s as [|u r]; [reflexivity|].
  destruct (str_eqb (u :: r) [0]) eqn:E.
  - apply str_eqb_eq in E. rewrite E. reflexivity.
  - rewrite str_eqb_neq; [reflexivity|].
    intros H. apply toUSVString_NUL in H. rewrite H in E. discriminate E.
Qed.

Lemma decodeHex_encodeHex_any_witness :
  decodeHex (encodeHex [0xD800; 97]) = [0xFFFD; 97].
Proof. exact (decodeHex_encodeHex_any [0xD800; 97] ltac:(all_code_units)). Defined.



(** X8: on well-formed strings [encodeHex] is injective but for one
    collision: the empty string and the string made of one NUL both encode
    to [0x00]. *)
Theorem encodeHex_injective (s1 s2 : jsstring) :
  Unicode.isWellFormed s1 = true -> Unicode.isWellFormed s2 = true ->
  (encodeHex s1 = encodeHex s2 <->
   s1 = s2 \/ (s1 = [] /\ s2 = [0]) \/ (s1 = [0] /\ s2 = [])).
Proof.
  intros H1 H2. split.
  - intros E.
    destruct (list_eq_dec N.eq_dec s1 [0]) as [->|N1];
      destruct (list_eq_dec N.eq_dec s2 [0]) as [->|N2].
    + now left.
    + right; right. split; [reflexivity|].
      rewrite <- (decodeHex_encodeHex_gen s2 H2 N2), <- E. reflexivity.
    + right; left. split; [|reflexivity].
      rewrite <- (decodeHex_encodeHex_gen s1 H1 N1), E. reflexivity.
    + left. rewrite <- (decodeHex_encodeHex_gen s1 H1 N1),
        <- (decodeHex_encodeHex_gen s2 H2 N2). now rewrite E.
  - intros [->|[[-> ->]|[-> ->]]]; reflexivity.
Qed.

Lemma encodeHex_injective_witness :
  encodeHex (lit "") = encodeHex [0] <->
  lit "" = [0] \/ (lit "" = [] /\ [0] = [0]) \/ (lit "" = [0] /\ [0] = []).
Proof. exact (encodeHex_injective (lit "") [0] eq_refl eq_refl). Defined.

(** X9: [decodeHex] removes the first [0x] wherever it stands, not only at
    the front: for [a] and [b] without the letter [x],
    [decodeHex(a + "0x" + b)] is [decodeHex(a + b)]. *)
Theorem decodeHex_prefix_anywhere (a b : jsstring) :
  ~ In 120 a -> ~ In 120 b ->
  decodeHex (a ++ lit "0x" ++ b) = decodeHex (a ++ b).
Proof.
  intros Ha Hb. unfold decodeHex.
  rewrite replace_0x_first by exact Ha.
  rewrite replace_0x_absent; [reflexivity|].
  rewrite in_app_iff. tauto.
Qed.

Lemma decodeHex_prefix_anywhere_witness :
  decodeHex (lit "610x62") = decodeHex (lit "6162").
Proof.
  apply (decodeHex_prefix_anywhere (lit "61") (lit "62")); not_in.
Defined.

(** ** The UTF-8 decoder on arbitrary bytes *)

Module DecoderFacts.
Import Unicode.

Lemma replacement_scalar : scalar REPLACEMENT.
Proof. right. unfold REPLACEMENT. lia. Qed.

Lemma lead_inv (b : N) :
  Forall scalar (fst (lead b)) /\ decoder_inv (snd (lead b)).
Proof.
  unfold lead.
  destruct (N.leb_spec b 0x7F).
  { split; [constructor; [unfold scalar; lia|constructor] | exact I]. }
  destruct (N.leb_spec 0xC2 b); destruct (N.leb_spec b 0xDF); cbn [andb].
  1:{ split; [constructor|]. unfold decoder_inv. cbn. lia. }
  all: destruct (N.leb_spec 0xE0 b); destruct (N.leb_spec b 0xEF); cbn [andb].
  all: try (split; [constructor|]; unfold decoder_inv;
            cbn [d_left d_cp d_lower d_upper snd];
            destruct (N.eqb_spec b 0xE0); destruct (N.eqb_spec b 0xED); lia).
  all: destruct (N.leb_spec 0xF0 b); destruct (N.leb_spec b 0xF4); cbn [andb].
  all: try (split; [constructor|]; unfold decoder_inv;
            cbn [d_left d_cp d_lower d_upper snd];
            destruct (N.eqb_spec b 0xF0); destruct (N.eqb_spec b 0xF4); lia).
  all: split; [constructor; [apply replacement_scalar|constructor] | exact I].
Qed.

(** Whatever the bytes, the decoder emits scalar values only. *)
Lemma decode_scalar (bs : list N) :
  forall st, decoder_inv st -> Forall scalar (decode st bs).
Proof.
  induction bs as [|b r IH]; intros [cp left lo up] Hinv; cbn [decode d_left].
  - destruct left; [constructor|constructor; [apply replacement_scalar|constructor]].
  - destruct (lead_inv b) as [Hout Hst].
    destruct left as [|k].
    + destruct (lead b) as [out st']. apply Forall_app. split; [exact Hout|].
      apply IH. exact Hst.
    + cbn [d_lower d_upper d_cp].
      destruct (N.leb_spec lo b); destruct (N.leb_spec b up); cbn [andb].
      2-4: constructor; [apply replacement_scalar|];
           destruct (lead b) as [out st']; apply Forall_app; split;
           [exact Hout | apply IH; exact Hst].
      unfold decoder_inv in Hinv. cbn [d_left d_cp d_lower d_upper] in Hinv.
      destruct k as [|[|[|k]]].
      * constructor; [unfold scalar; lia | apply IH; exact I].
      * apply IH. unfold decoder_inv. cbn [d_left d_cp d_lower d_upper]. lia.
      * apply IH. unfold decoder_inv. cbn [d_left d_cp d_lower d_upper]. lia.
      * destruct Hinv.
Qed.

Lemma toString_utf8_isWellFormed (bs : list N) :
  isWellFormed (Buffer.toString_utf8 bs) = true.
Proof.
  unfold Buffer.toString_utf8. apply isWellFormed_utf16.
  apply decode_scalar. exact I.
Qed.

End DecoderFacts.

(** X11: whatever its input, [decodeHex] returns a well-formed string (no
    unpaired surrogate), and never the string made of one NUL. *)
Theorem decodeHex_isWellFormed (data : jsstring) :
  Unicode.isWellFormed (decodeHex data) = true /\ decodeHex data <> [0].
Proof.
  rewrite decodeHex_decodedText.
  destruct (str_eqb (decodedText data) [0]) eqn:E.
  - split; [reflexivity|discriminate].
  - split; [apply DecoderFacts.toString_utf8_isWellFormed|].
    intros H. rewrite H in E. discriminate E.
Qed.

(** ** Pool locators: format, round trips, leniency *)

Module LocatorFacts.
Import URLSearchParams.

Lemma packPoolLocator_usv (L : IValidPoolLocator) :
  packPoolLocator L = toString (locator_pairs (usv_locator L)).
Proof. reflexivity. Qed.

Lemma locator_pairs_wf (L : IValidPoolLocator) :
  locator_wellFormed L -> Forall wf_pair (locator_pairs L).
Proof. intros (Ha & Hs & Ht). repeat constructor; assumption. Qed.

Lemma usv_locator_wellFormed (L : IValidPoolLocator) :
  locator_strings L -> locator_wellFormed (usv_locator L).
Proof.
  intros (Ha & Hs & Ht). repeat split; now apply toUSVString_isWellFormed.
Qed.

Lemma usv_locator_id (L : IValidPoolLocator) :
  locator_wellFormed L -> usv_locator L = L.
Proof.
  destruct L as [a s t]. intros (Ha & Hs & Ht).
  cbn [vaddress vschema vtype] in *.
  unfold usv_locator. cbn [vaddress vschema vtype].
  now rewrite (toUSVString_wf a), (toUSVString_wf s), (toUSVString_wf t).
Qed.

Lemma locator_wellFormed_strings (L : IValidPoolLocator) :
  locator_wellFormed L -> locator_strings L.
Proof.
  intros (Ha & Hs & Ht). repeat split; now apply isWellFormed_code_units.
Qed.

(** Reading the pairs of a locator. *)
Lemma unpack_locator_pairs (L : IValidPoolLocator) :
  locator_wellFormed L ->
  unpackPoolLocator (toString (locator_pairs L)) = asPoolLocator L.
Proof.
  intros H. unfold unpackPoolLocator.
  rewrite of_string_toString by now apply locator_pairs_wf.
  reflexivity.
Qed.

Lemma upper_hex_digit_unreserved (d : N) :
  d < 16 -> unreserved (upper_hex_digit d) = true.
Proof.
  intros H. unfold unreserved, upper_hex_digit.
  rewrite !orb_true_iff, !andb_true_iff, !N.leb_le.
  destruct (N.ltb_spec d 10); lia.
Qed.

Lemma encode_byte_chars (b : N) :
  b < 256 -> Forall (fun c => locator_char c = true /\ c <> 61 /\ c <> 38) (encode_byte b).
Proof.
  intros Hb. unfold encode_byte.
  destruct (N.eqb_spec b 32).
  { constructor; [|constructor]. split; [reflexivity|split; discriminate]. }
  destruct (unreserved b) eqn:E.
  - constructor; [|constructor]. unfold locator_char. rewrite E.
    apply unreserved_range in E. split; [reflexivity|split; lia].
  - assert (Hq : b / 16 < 16) by nlia. assert (Hr : b mod 16 < 16) by nlia.
    pose proof (upper_hex_digit_unreserved _ Hq) as Uq.
    pose proof (upper_hex_digit_unreserved _ Hr) as Ur.
    repeat (apply Forall_cons || apply Forall_nil).
    + split; [reflexivity|split; discriminate].
    + unfold locator_char. rewrite Uq. apply unreserved_range in Uq.
      split; [reflexivity|split; lia].
    + unfold locator_char. rewrite Ur. apply unreserved_range in Ur.
      split; [reflexivity|split; lia].
Qed.

Lemma serialize_component_chars (s : jsstring) :
  code_units s ->
  Forall (fun c => locator_char c = true /\ c <> 61 /\ c <> 38) (serialize_component s).
Proof.
  intros H. apply from_utf8_range_any in H. unfold serialize_component.
  induction H as [|b bs Hb _ IH]; [constructor|].
  cbn [flat_map]. apply Forall_app. split; [now apply encode_byte_chars|exact IH].
Qed.

Lemma locator_char_not_colon (c : N) : locator_char c = true -> c <> colon.
Proof.
  unfold locator_char, unreserved, colon.
  rewrite !orb_true_iff, !andb_true_iff, !N.leb_le, !N.eqb_eq. lia.
Qed.

Lemma toString_locator_pairs (L : IValidPoolLocator) :
  toString (locator_pairs L) =
  lit "address=" ++ serialize_component (vaddress L)
  ++ lit "&schema=" ++ serialize_component (vschema L)
  ++ lit "&type=" ++ serialize_component (vtype L).
Proof.
  unfold toString, locator_pairs. cbn [map join fst snd].
  change (serialize_component EncodedPoolLocatorEnum.Address) with (lit "address").
  change (serialize_component EncodedPoolLocatorEnum.Schema) with (lit "schema").
  change (serialize_component EncodedPoolLocatorEnum.Type_) with (lit "type").
  rewrite <- !app_assoc. reflexivity.
Qed.

Lemma serialize_component_usv (s : jsstring) :
  code_units s ->
  serialize_component (Unicode.toUSVString s) = serialize_component s.
Proof.
  intros H. unfold serialize_component. now rewrite from_utf8_toUSVString.
Qed.

Lemma packPoolLocator_form (L : IValidPoolLocator) :
  locator_strings L ->
  packPoolLocator L =
  lit "address=" ++ serialize_component (vaddress L)
  ++ lit "&schema=" ++ serialize_component (vschema L)
  ++ lit "&type=" ++ serialize_component (vtype L).
Proof.
  intros (Ha & Hs & Ht). rewrite packPoolLocator_usv, toString_locator_pairs.
  unfold usv_locator. cbn [vaddress vschema vtype].
  now rewrite !serialize_component_usv.
Qed.

Lemma packPoolLocator_chars (L : IValidPoolLocator) :
  locator_strings L -> Forall (fun c => locator_char c = true) (packPoolLocator L).
Proof.
  intros HL. rewrite packPoolLocator_form by exact HL.
  destruct HL as (Ha & Hs & Ht).
  assert (Hc : forall s, code_units s ->
             Forall (fun c => locator_char c = true) (serialize_component s)).
  { intros s H. eapply Forall_impl; [|apply serialize_component_chars, H].
    intros c Hc. apply Hc. }
  repeat (apply Forall_app; split); auto; repeat constructor.
Qed.

Lemma packPoolLocator_no_colon (L : IValidPoolLocator) :
  locator_strings L -> ~ In colon (packPoolLocator L).
Proof.
  intros HL Hin. pose proof (packPoolLocator_chars L HL) as HF.
  rewrite Forall_forall in HF. now apply (locator_char_not_colon _ (HF _ Hin)).
Qed.

(** The general form of the round trip. *)
Lemma unpack_pack_usv (L : IValidPoolLocator) :
  locator_strings L ->
  unpackPoolLocator (packPoolLocator L) = asPoolLocator (usv_locator L).
Proof.
  intros HL. rewrite packPoolLocator_usv.
  apply unpack_locator_pairs, usv_locator_wellFormed, HL.
Qed.

Lemma asPoolLocator_inj (L1 L2 : IValidPoolLocator) :
  asPoolLocator L1 = asPoolLocator L2 -> L1 = L2.
Proof.
  destruct L1, L2. unfold asPoolLocator. cbn. intros [= -> -> ->]. reflexivity.
Qed.

(** Cutting at a separator that is known to be there. *)
Lemma split_all_app_sep (c : N) (x y : jsstring) :
  split_all c (x ++ c :: y) = split_all c x ++ split_all c y.
Proof.
  induction x as [|u x IH]; cbn [app split_all].
  - now rewrite N.eqb_refl.
  - destruct (u =? c); [now rewrite IH|].
    rewrite IH. pose proof (split_all_nonempty c x).
    destruct (split_all c x); [congruence|reflexivity].
Qed.

Lemma from_utf8_ascii_app (a b : jsstring) :
  Forall (fun c => c < 128) a ->
  Buffer.from_utf8 (a ++ b) = a ++ Buffer.from_utf8 b.
Proof.
  unfold Buffer.from_utf8.
  induction 1 as [|u r Hu _ IH]; [reflexivity|].
  cbn [app Unicode.code_points].
  replace (Unicode.is_high u) with false by (symmetry; apply is_high_false; lia).
  replace (Unicode.is_low u) with false by (symmetry; apply is_low_false; lia).
  cbn [flat_map]. rewrite IH. unfold Unicode.utf8_bytes.
  replace (u <=? 0x7F) with true by (symmetry; apply N.leb_le; lia).
  reflexivity.
Qed.

Lemma toString_ascii (q : t) :
  Forall wf_pair q -> Forall (fun c => c < 128) (toString q).
Proof.
  intros Hq. change (toString q) with (join (lit "&") (map serialize_pair q)).
  apply join_ascii. apply Forall_map.
  eapply Forall_impl; [|exact Hq]. apply serialize_pair_ascii.
Qed.

(** More parameters after a serialized list come after its pairs. *)
Lemma parse_toString_more (q : t) (more : jsstring) :
  Forall wf_pair q ->
  parse (toString q ++ lit "&" ++ more) = q ++ parse more.
Proof.
  intros Hq. unfold parse at 1.
  rewrite from_utf8_ascii_app by now apply toString_ascii.
  change (lit "&" ++ more) with (38 :: more).
  assert (E : Buffer.from_utf8 (38 :: more) = 38 :: Buffer.from_utf8 more) by reflexivity.
  rewrite E, split_all_app_sep, flat_map_app.
  f_equal. rewrite <- (parse_toString q Hq) at 2. unfold parse.
  now rewrite from_utf8_ascii by now apply toString_ascii.
Qed.

Lemma get_usv_app (q q' : t) (name v : jsstring) :
  get_usv q name = Some v -> get_usv (q ++ q') name = Some v.
Proof.
  induction q as [|[k w] q IH]; [discriminate|]. cbn [app get_usv].
  destruct (str_eqb k name); auto.
Qed.

Lemma get_app (q q' : t) (name v : jsstring) :
  get q name = Some v -> get (q ++ q') name = Some v.
Proof. apply get_usv_app. Qed.

Lemma get_usv_Permutation (q q' : t) (name : jsstring) :
  NoDup (map fst q) -> Permutation q q' -> get_usv q name = get_usv q' name.
Proof.
  intros Hnd Hp. induction Hp as [|[k v] l l' Hp IH|[k1 v1] [k2 v2] l|l l' l'' H1 IH1 H2 IH2].
  - reflexivity.
  - cbn [get_usv]. inversion Hnd; subst. now rewrite IH.
  - cbn [get_usv].
    destruct (str_eqb k1 name) eqn:E1; destruct (str_eqb k2 name) eqn:E2; try reflexivity.
    apply str_eqb_eq in E1, E2. subst. cbn in Hnd.
    inversion Hnd as [|? ? Hin _]; subst. exfalso. apply Hin. now left.
  - rewrite IH1 by assumption. apply IH2.
    eapply Permutation_NoDup; [|exact Hnd]. now apply Permutation_map.
Qed.

End LocatorFacts.

Import LocatorFacts.

Module ParserFacts.
Import URLSearchParams.

Lemma packPoolLocator_wf (L : IValidPoolLocator) :
  locator_wellFormed L -> packPoolLocator L = toString (locator_pairs L).
Proof. intros H. now rewrite packPoolLocator_usv, usv_locator_id. Qed.

Lemma toString_legacy_pairs (L : IValidPoolLocator) :
  toString (legacy_pairs L) =
  lit "address=" ++ serialize_component (vaddress L)
  ++ lit "&standard=" ++ serialize_component (vschema L)
  ++ lit "&type=" ++ serialize_component (vtype L).
Proof.
  unfold toString, legacy_pairs. cbn [map join fst snd].
  change (serialize_component EncodedPoolLocatorEnum.Address) with (lit "address").
  change (serialize_component EncodedPoolLocatorEnum.Standard) with (lit "standard").
  change (serialize_component EncodedPoolLocatorEnum.Type_) with (lit "type").
  rewrite <- !app_assoc. reflexivity.
Qed.

(** Every value the parser returns is well-formed. *)
Lemma parse_values_wellFormed (input : jsstring) :
  Forall (fun kv => Unicode.isWellFormed (snd kv) = true) (parse input).
Proof.
  unfold parse. induction (split_all 38 (Buffer.from_utf8 input)) as [|sq l IH];
    [constructor|].
  cbn [flat_map]. apply Forall_app. split; [|exact IH].
  unfold parse_sequence. destruct sq as [|c sq]; [constructor|].
  destruct (split_pair (c :: sq)) as [n v]. constructor; [|constructor].
  apply DecoderFacts.toString_utf8_isWellFormed.
Qed.

Lemma get_wellFormed (data name v : jsstring) :
  get (of_string data) name = Some v -> Unicode.isWellFormed v = true.
Proof.
  unfold get, of_string.
  pose proof (parse_values_wellFormed
                (if startsWith data (lit "?") then slice data 1 else data)) as HF.
  induction HF as [|[k w] q Hw _ IH]; [discriminate|].
  cbn [get_usv]. destruct (str_eqb k _); [intros [= <-]; exact Hw | exact IH].
Qed.

End ParserFacts.

Import ParserFacts.

(** X12: the string [packPoolLocator] returns is
    [address=...&schema=...&type=...], in this order, each value in its
    form-urlencoded form; it is made of ASCII letters and digits and of
    [* - . _ % + = &] only, so it holds no colon. *)
Theorem packPoolLocator_wire_format (L : IValidPoolLocator) :
  locator_strings L ->
  packPoolLocator L =
    lit "address=" ++ URLSearchParams.serialize_component (vaddress L)
    ++ lit "&schema=" ++ URLSearchParams.serialize_component (vschema L)
    ++ lit "&type=" ++ URLSearchParams.serialize_component (vtype L)
  /\ Forall (fun c => locator_char c = true) (packPoolLocator L)
  /\ ~ In colon (packPoolLocator L).
Proof.
  intros H. split; [now apply packPoolLocator_form|].
  split; [now apply packPoolLocator_chars | now apply packPoolLocator_no_colon].
Qed.

Lemma packPoolLocator_wire_format_witness :
  ~ In colon (packPoolLocator test_locator).
Proof.
  apply (packPoolLocator_wire_format test_locator).
  repeat split; all_code_units.
Defined.

(** X20: a subscription name built from a packed locator carries it: for a
    locator of well-formed strings and an event that is absent or without a
    colon, unpacking the name returns the event, and a pool locator string
    that unpacks to the locator. *)
Theorem subscription_carries_locator (p : jsstring) (L : IValidPoolLocator)
  (event : option jsstring) :
  locator_wellFormed L ->
  (forall e, event = Some e -> ~ In colon e) ->
  let name := packSubscriptionName p (packPoolLocator L) event in
  sub_event (unpackSubscriptionName p name) = event
  /\ option_map unpackPoolLocator (sub_poolLocator (unpackSubscriptionName p name))
     = Some (asPoolLocator L).
Proof.
  intros HL He name. subst name.
  rewrite unpack_pack_subscription;
    [|apply packPoolLocator_no_colon, locator_wellFormed_strings, HL|exact He].
  cbn [sub_event sub_poolLocator option_map]. split; [reflexivity|].
  f_equal. rewrite packPoolLocator_wf by exact HL. now apply unpack_locator_pairs.
Qed.

Lemma subscription_carries_locator_witness :
  option_map unpackPoolLocator
    (sub_poolLocator
       (unpackSubscriptionName (lit "fly")
          (packSubscriptionName (lit "fly") (packPoolLocator test_locator)
             (Some (lit "Transfer")))))
  = Some (asPoolLocator test_locator).
Proof.
  apply (subscription_carries_locator (lit "fly") test_locator (Some (lit "Transfer"))).
  - repeat split.
  - intros e [= <-]. not_in.
Defined.

(** X13: for every locator, [unpackPoolLocator(packPoolLocator(L))] is [L]
    with each unpaired surrogate of its fields replaced by U+FFFD; it is
    always valid, and packing that result gives the same string again. *)
Theorem unpack_pack_locator_any (L : IValidPoolLocator) :
  locator_strings L ->
  unpackPoolLocator (packPoolLocator L) = asPoolLocator (usv_locator L)
  /\ validatePoolLocator (unpackPoolLocator (packPoolLocator L)) = true
  /\ packPoolLocator (usv_locator L) = packPoolLocator L.
Proof.
  intros HL. rewrite unpack_pack_usv by exact HL.
  split; [reflexivity|]. split; [reflexivity|].
  rewrite !packPoolLocator_usv. f_equal. f_equal.
  apply usv_locator_id, usv_locator_wellFormed, HL.
Qed.

Lemma unpack_pack_locator_any_witness :
  unpackPoolLocator (packPoolLocator surrogate_locator)
  = {| address := Some [0xFFFD];
       schema := Some (lit "ERC20WithData");
       type := Some (lit "fungible") |}.
Proof.
  apply (unpack_pack_locator_any surrogate_locator).
  repeat split; all_code_units.
Defined.

(** X14: [packPoolLocator] is injective on locators of well-formed strings:
    two of them with the same packed string are the same locator. *)
Theorem packPoolLocator_injective (L1 L2 : IValidPoolLocator) :
  locator_wellFormed L1 -> locator_wellFormed L2 ->
  packPoolLocator L1 = packPoolLocator L2 -> L1 = L2.
Proof.
  intros H1 H2 E. apply asPoolLocator_inj.
  rewrite <- (unpack_locator_pairs L1 H1), <- (unpack_locator_pairs L2 H2).
  now rewrite <- !packPoolLocator_wf, E by assumption.
Qed.

Lemma packPoolLocator_injective_witness : test_locator = test_locator.
Proof.
  apply (packPoolLocator_injective test_locator test_locator);
    [repeat split | repeat split | reflexivity].
Defined.

(** X15: [unpackPoolLocator] reads a packed locator that is followed by [&]
    and any further text, or preceded by one [?], as the locator itself:
    further parameters, repeated keys included, change nothing. *)
Theorem unpackPoolLocator_extra_parameters (L : IValidPoolLocator) (more : jsstring) :
  locator_wellFormed L ->
  unpackPoolLocator (packPoolLocator L ++ lit "&" ++ more) = asPoolLocator L
  /\ unpackPoolLocator (lit "?" ++ packPoolLocator L) = asPoolLocator L.
Proof.
  intros HL. rewrite packPoolLocator_wf by exact HL.
  pose proof (locator_pairs_wf L HL) as Hq. split.
  - unfold unpackPoolLocator, URLSearchParams.of_string.
    assert (E : startsWith (URLSearchParams.toString (locator_pairs L) ++ lit "&" ++ more)
                  (lit "?") = false).
    { rewrite toString_locator_pairs. reflexivity. }
    rewrite E, parse_toString_more by exact Hq.
    rewrite (get_app _ _ EncodedPoolLocatorEnum.Address (vaddress L)) by reflexivity.
    rewrite (get_app _ _ EncodedPoolLocatorEnum.Schema (vschema L)) by reflexivity.
    rewrite (get_app _ _ EncodedPoolLocatorEnum.Type_ (vtype L)) by reflexivity.
    reflexivity.
  - unfold unpackPoolLocator, URLSearchParams.of_string.
    change (startsWith (lit "?" ++ URLSearchParams.toString (locator_pairs L)) (lit "?"))
      with true. cbn iota.
    change (slice (lit "?" ++ URLSearchParams.toString (locator_pairs L)) 1)
      with (URLSearchParams.toString (locator_pairs L)).
    rewrite parse_toString by exact Hq. reflexivity.
Qed.

Lemma unpackPoolLocator_extra_parameters_witness :
  unpackPoolLocator
    (packPoolLocator test_locator ++ lit "&" ++ lit "address=0x9&extra=1")
  = asPoolLocator test_locator.
Proof.
  refine (proj1 (unpackPoolLocator_extra_parameters test_locator
                   (lit "address=0x9&extra=1") _)).
  repeat split.
Defined.

(** X16: the order of the parameters does not matter to
    [unpackPoolLocator]: two serialized lists of pairs of well-formed
    strings, with no key repeated, that are permutations of each other
    unpack to the same locator. *)
Theorem unpackPoolLocator_order_independent (q q' : URLSearchParams.t) :
  Forall wf_pair q -> NoDup (map fst q) -> Permutation q q' ->
  unpackPoolLocator (URLSearchParams.toString q')
  = unpackPoolLocator (URLSearchParams.toString q).
Proof.
  intros Hq Hnd Hp.
  assert (Hq' : Forall wf_pair q') by (eapply Permutation_Forall; eassumption).
  unfold unpackPoolLocator. rewrite !of_string_toString by assumption.
  unfold URLSearchParams.get.
  now rewrite !(get_usv_Permutation q q') by assumption.
Qed.

Lemma unpackPoolLocator_order_independent_witness :
  unpackPoolLocator (lit "schema=ERC20WithData&address=0x123456&type=fungible")
  = unpackPoolLocator (lit "address=0x123456&schema=ERC20WithData&type=fungible").
Proof.
  apply (unpackPoolLocator_order_independent
           (locator_pairs test_locator)
           [ (EncodedPoolLocatorEnum.Schema, lit "ERC20WithData");
             (EncodedPoolLocatorEnum.Address, lit "0x123456");
             (EncodedPoolLocatorEnum.Type_, lit "fungible") ]).
  - repeat constructor.
  - repeat (constructor; [not_in|]). constructor.
  - apply perm_swap.
Defined.

(** X17: a locator string in the earlier format, with the key [standard]
    where [packPoolLocator] writes [schema], unpacks to the same locator as
    the string [packPoolLocator] returns for the same address, schema and
    type. *)
Theorem unpackPoolLocator_legacy_format (L : IValidPoolLocator) :
  locator_wellFormed L ->
  unpackPoolLocator
    (lit "address=" ++ URLSearchParams.serialize_component (vaddress L)
     ++ lit "&standard=" ++ URLSearchParams.serialize_component (vschema L)
     ++ lit "&type=" ++ URLSearchParams.serialize_component (vtype L))
  = unpackPoolLocator (packPoolLocator L).
Proof.
  intros HL. rewrite <- toString_legacy_pairs.
  rewrite packPoolLocator_wf by exact HL.
  rewrite unpack_locator_pairs by exact HL.
  unfold unpackPoolLocator. rewrite of_string_toString.
  - reflexivity.
  - destruct HL as (Ha & Hs & Ht). repeat constructor; assumption.
Qed.

Lemma unpackPoolLocator_legacy_format_witness :
  unpackPoolLocator (lit "address=0x123456&standard=ERC20WithData&type=fungible")
  = unpackPoolLocator (packPoolLocator test_locator).
Proof.
  apply (unpackPoolLocator_legacy_format test_locator). repeat split.
Defined.

(** X18: every locator that [unpackPoolLocator] returns with its three
    fields present passes [validatePoolLocator], has well-formed fields, and
    survives packing: unpacking its packed form gives it again. *)
Theorem repack_unpacked_locator (data : jsstring) (L : IValidPoolLocator) :
  asValidPoolLocator (unpackPoolLocator data) = Some L ->
  validatePoolLocator (unpackPoolLocator data) = true
  /\ locator_wellFormed L
  /\ unpackPoolLocator (packPoolLocator L) = unpackPoolLocator data.
Proof.
  unfold asValidPoolLocator, validatePoolLocator.
  destruct (unpackPoolLocator data) as [a s t] eqn:E. cbn [address schema type].
  destruct a as [a|]; [|discriminate]. destruct s as [s|]; [|discriminate].
  destruct t as [t|]; [|discriminate]. intros [= <-].
  assert (HL : locator_wellFormed (mkValidPoolLocator a s t)).
  { unfold unpackPoolLocator in E. injection E as Ea Es Et.
    repeat split; cbn [vaddress vschema vtype].
    - eapply get_wellFormed, Ea.
    - unfold nullish in Es.
      destruct (URLSearchParams.get (URLSearchParams.of_string data)
                  EncodedPoolLocatorEnum.Schema) eqn:G.
      + injection Es as <-. eapply get_wellFormed, G.
      + eapply get_wellFormed, Es.
    - eapply get_wellFormed, Et. }
  split; [reflexivity|]. split; [exact HL|].
  rewrite packPoolLocator_wf by exact HL. now apply unpack_locator_pairs.
Qed.

Lemma repack_unpacked_locator_witness :
  unpackPoolLocator
    (packPoolLocator (mkValidPoolLocator (lit "0x1") (lit "ERC20") (lit "fungible")))
  = unpackPoolLocator (lit "address=0x1&standard=ERC20&type=fungible").
Proof.
  apply (repack_unpacked_locator (lit "address=0x1&standard=ERC20&type=fungible")
           (mkValidPoolLocator (lit "0x1") (lit "ERC20") (lit "fungible"))).
  reflexivity.
Defined.

(** X21: [getTokenSchema] returns one of the four schema names whatever its
    arguments, and the name tells both how the type compared with
    ["fungible"] and the value of [withData] (taken as true when omitted):
    two calls with the same result agree on both. *)
Theorem getTokenSchema_canonical (t1 t2 : jsstring) (w1 w2 : option bool) :
  In (getTokenSchema t1 w1) canonical_schemas
  /\ (getTokenSchema t1 w1 = getTokenSchema t2 w2 ->
      str_eqb t1 TokenType.FUNGIBLE = str_eqb t2 TokenType.FUNGIBLE
      /\ match w1 with Some b => b | None => true end
         = match w2 with Some b => b | None => true end).
Proof.
  unfold getTokenSchema, canonical_schemas.
  destruct (str_eqb t1 TokenType.FUNGIBLE), (str_eqb t2 TokenType.FUNGIBLE),
    w1 as [[|]|], w2 as [[|]|]; cbn [In];
    (split; [tauto|]); intros H; try discriminate H; split; reflexivity.
Qed.

Lemma getTokenSchema_canonical_witness :
  str_eqb TokenType.FUNGIBLE TokenType.FUNGIBLE = str_eqb TokenType.FUNGIBLE TokenType.FUNGIBLE
  /\ true = true.
Proof.
  exact (proj2 (getTokenSchema_canonical TokenType.FUNGIBLE TokenType.FUNGIBLE
                  None (Some true)) eq_refl).
Defined.

Lemma get_usv_In (q : URLSearchParams.t) (name : jsstring) :
  URLSearchParams.get_usv q name <> None <-> In name (map fst q).
Proof.
  induction q as [|[k v] q IH]; cbn [URLSearchParams.get_usv map In fst].
  - split; [congruence|tauto].
  - destruct (str_eqb k name) eqn:E.
    + apply str_eqb_eq in E. split; [now left|discriminate].
    + rewrite IH. split; [now right|]. intros [H|H]; [|exact H].
      subst. rewrite str_eqb_refl in E. discriminate E.
Qed.

(** X19: a serialized list of pairs of well-formed strings unpacks to a
    valid locator exactly when its keys include [address], [type], and
    [schema] or [standard]. *)
Theorem unpackPoolLocator_valid_iff (q : URLSearchParams.t) :
  Forall wf_pair q ->
  (validatePoolLocator (unpackPoolLocator (URLSearchParams.toString q)) = true <->
   In EncodedPoolLocatorEnum.Address (map fst q)
   /\ (In EncodedPoolLocatorEnum.Schema (map fst q)
       \/ In EncodedPoolLocatorEnum.Standard (map fst q))
   /\ In EncodedPoolLocatorEnum.Type_ (map fst q)).
Proof.
  intros Hq. unfold unpackPoolLocator, validatePoolLocator.
  rewrite of_string_toString by exact Hq. cbn [address schema type].
  unfold URLSearchParams.get.
  change (Unicode.toUSVString EncodedPoolLocatorEnum.Address)
    with EncodedPoolLocatorEnum.Address.
  change (Unicode.toUSVString EncodedPoolLocatorEnum.Schema)
    with EncodedPoolLocatorEnum.Schema.
  change (Unicode.toUSVString EncodedPoolLocatorEnum.Standard)
    with EncodedPoolLocatorEnum.Standard.
  change (Unicode.toUSVString EncodedPoolLocatorEnum.Type_)
    with EncodedPoolLocatorEnum.Type_.
  rewrite <- !get_usv_In.
  destruct (URLSearchParams.get_usv q EncodedPoolLocatorEnum.Address);
    destruct (URLSearchParams.get_usv q EncodedPoolLocatorEnum.Schema);
    destruct (URLSearchParams.get_usv q EncodedPoolLocatorEnum.Standard);
    destruct (URLSearchParams.get_usv q EncodedPoolLocatorEnum.Type_);
    cbn; split; try discriminate; try tauto;
    try (intros _; repeat split; try (left; discriminate); try (right; discriminate); discriminate);
    intros (H1 & [H2|H2] & H3); congruence.
Qed.

Lemma unpackPoolLocator_valid_iff_witness :
  validatePoolLocator
    (unpackPoolLocator (URLSearchParams.toString (legacy_pairs test_locator))) = true.
Proof.
  apply (unpackPoolLocator_valid_iff (legacy_pairs test_locator)).
  - repeat constructor.
  - split; [left; reflexivity|]. split; [right; right; left; reflexivity|].
    right; right; left; reflexivity.
Defined.

